(** * evcpp: the promise state machine, its chain protocol, the aggregate
    combinators and the coroutine adapter.

    The C++ templates are embedded over one heap of promise states.  A state
    is addressed by a natural number (the pointer), stateful code is written
    in a state-and-failure monad over the [World], and the closures the
    library builds are first-order data ([Callback], [UserFn]) interpreted by
    [call_callback]. *)

From stdpp Require Import gmap list relations.

#[local] Set Warnings "-register-all".

(** ** Statuses ([enum class PromiseStatus]) *)

Inductive PromiseStatus :=
  | kInit
  | kPreResolved
  | kResolved
  | kPreRejected
  | kRejected
  | kCancelled.

#[global] Instance PromiseStatus_eq_dec : EqDecision PromiseStatus.
Proof. solve_decision. Defined.

Definition addr := nat.
Definition Executor := nat.
Definition handle := nat.

Section Model.
Context {T E : Type}.

(** The types a promise's value parameter ranges over in this library: a user
    type, or [std::vector] of such (built by the aggregate combinators); the
    same for the error parameter. *)
Inductive Val :=
  | Base (t : T)
  | Vec (l : list Val).

Inductive Err :=
  | BaseE (e : E)
  | VecE (l : list Err).

(** ** [Result<T, E>]: [std::variant<std::monostate, T, E>] *)

Inductive Result :=
  | kNull
  | kValue (v : Val)
  | kError (e : Err).

Definition IsError (r : Result) : bool :=
  match r with kError _ => true | _ => false end.

Definition IsValue (r : Result) : bool :=
  match r with kValue _ => true | _ => false end.

(** [operator bool] *)
Definition to_bool (r : Result) : bool := IsValue r.

(** [Value()] dereferences [std::get_if<T>]; [None] is the null dereference. *)
Definition Value (r : Result) : option Val :=
  match r with kValue v => Some v | _ => None end.

Definition Error (r : Result) : option Err :=
  match r with kError e => Some e | _ => None end.

(** ** [Result<void, E>]: [std::optional<E> err_] *)

Record ResultVoid := mkResultVoid { err_ : option Err }.

Definition IsError_void (r : ResultVoid) : bool :=
  match err_ r with Some _ => true | None => false end.

Definition IsValue_void (r : ResultVoid) : bool := false.

Definition to_bool_void (r : ResultVoid) : bool := false.

(** [err_.value()]; [None] is [std::bad_optional_access]. *)
Definition Error_void (r : ResultVoid) : option Err := err_ r.

(** What a state stores and a continuation receives: a [Result<T, E>] for a
    [PromiseState<T, E>], a [Result<void, E>] for a [PromiseState<void, E>]. *)
Inductive AnyResult :=
  | OfT (r : Result)
  | OfVoid (r : ResultVoid).

Definition AnyIsError (r : AnyResult) : bool :=
  match r with OfT r => IsError r | OfVoid r => IsError_void r end.

Definition AnyError (r : AnyResult) : option Err :=
  match r with OfT r => Error r | OfVoid r => Error_void r end.

Definition AnyValue (r : AnyResult) : option Val :=
  match r with OfT r => Value r | OfVoid _ => None end.

Definition as_result (r : AnyResult) : option Result :=
  match r with OfT r => Some r | OfVoid _ => None end.

(** ** Closures

    [UserFn] are the callables handed to [Then] whose return type is [void]:
    an opaque user lambda (named, its call is recorded in the trace), the
    per-input lambdas of [MkAllPromise], [MkAnyPromise] and [MkRacePromise]
    with their captures, and the two lambdas of [PromiseAwaiter]. *)
Inductive UserFn :=
  | FnOpaque (name : nat)
  | FnAll (void_v : bool) (idx : nat) (ctx : addr) (resolver : addr)
  | FnAny (void_v : bool) (idx : nat) (ctx : addr) (resolver : addr)
  | FnRace (void_v : bool) (resolver : addr)
  | FnAwaitSuspend (awaiter : addr) (h : handle)
  | FnAwaitResume (awaiter : addr).

(** The lambdas built by the three [Attach] overloads, with the weak pointer
    to the state they were attached to. *)
Inductive Callback :=
  | CbVoid (weak_promise : addr) (f : UserFn)
  | CbResult (weak_state : addr) (f : Result → Result)
  | CbPromise (weak_state : addr) (f : Result → addr).

Definition owner (cb : Callback) : addr :=
  match cb with
  | CbVoid p _ => p
  | CbResult p _ => p
  | CbPromise p _ => p
  end.

(** ** [PromiseStateBase] and [PromiseStateInternal<T, E>] *)

Record PromiseState := mkState {
  status_ : PromiseStatus;
  exec_ : option Executor;
  next_ : option addr;
  prev_ : option addr;
  co_handle_ : option handle;
  storage_ : option AnyResult;
  cb_ : option Callback;
}.

Definition set_status (s : PromiseStatus) (st : PromiseState) : PromiseState :=
  mkState s (exec_ st) (next_ st) (prev_ st) (co_handle_ st) (storage_ st) (cb_ st).

Definition set_exec (e : option Executor) (st : PromiseState) : PromiseState :=
  mkState (status_ st) e (next_ st) (prev_ st) (co_handle_ st) (storage_ st) (cb_ st).

Definition set_next (n : option addr) (st : PromiseState) : PromiseState :=
  mkState (status_ st) (exec_ st) n (prev_ st) (co_handle_ st) (storage_ st) (cb_ st).

Definition set_prev (p : option addr) (st : PromiseState) : PromiseState :=
  mkState (status_ st) (exec_ st) (next_ st) p (co_handle_ st) (storage_ st) (cb_ st).

Definition set_co_handle (h : option handle) (st : PromiseState) : PromiseState :=
  mkState (status_ st) (exec_ st) (next_ st) (prev_ st) h (storage_ st) (cb_ st).

Definition set_storage (r : option AnyResult) (st : PromiseState) : PromiseState :=
  mkState (status_ st) (exec_ st) (next_ st) (prev_ st) (co_handle_ st) r (cb_ st).

Definition set_cb (c : option Callback) (st : PromiseState) : PromiseState :=
  mkState (status_ st) (exec_ st) (next_ st) (prev_ st) (co_handle_ st) (storage_ st) c.

(** [PromiseState(Executor* exec)]: a state is born [kInit]. *)
Definition new_state (exec : option Executor) : PromiseState :=
  mkState kInit exec None None None None None.

(** The shared [Ctx] of [MkAllPromise] ([success_counter], [results]) and of
    [MkAnyPromise] ([failure_counter], [errors]); the counters are [size_t]. *)
Inductive Ctx :=
  | AllCtx (success_counter : Z) (results : list Val)
  | AnyCtx (failure_counter : Z) (errors : list Err).

Definition size_max : Z := 2 ^ 64.

(** [--counter] on a [size_t] *)
Definition pre_decrement (c : Z) : Z := ((c - 1) `mod` size_max)%Z.

(** [PromiseAwaiter<T, E>]: the awaited promise and [res_]. *)
Record PromiseAwaiter := mkAwaiter {
  promise_ : addr;
  res_ : AnyResult;
}.

(** ** The world *)

Inductive Event :=
  | Invoked (cb : Callback) (arg : AnyResult)
  | Called (name : nat) (arg : AnyResult)
  | Destroyed (h : handle)
  | Resumed (h : handle).

Definition Task : Type := Callback * AnyResult.

(** [ended] holds the handles of the coroutines whose frame is gone: those
    that ran to their end ([final_suspend] never suspends) and those that
    were destroyed. *)
Record World := mkWorld {
  heap : gmap addr PromiseState;
  ctxs : gmap addr Ctx;
  awaiters : gmap addr PromiseAwaiter;
  posted : list (Executor * Task);
  trace : list Event;
  ended : gset handle;
}.

Definition set_heap (h : gmap addr PromiseState) (w : World) : World :=
  mkWorld h (ctxs w) (awaiters w) (posted w) (trace w) (ended w).

Definition set_ctxs (c : gmap addr Ctx) (w : World) : World :=
  mkWorld (heap w) c (awaiters w) (posted w) (trace w) (ended w).

Definition set_awaiters (a : gmap addr PromiseAwaiter) (w : World) : World :=
  mkWorld (heap w) (ctxs w) a (posted w) (trace w) (ended w).

Definition set_posted (q : list (Executor * Task)) (w : World) : World :=
  mkWorld (heap w) (ctxs w) (awaiters w) q (trace w) (ended w).

Definition set_trace (t : list Event) (w : World) : World :=
  mkWorld (heap w) (ctxs w) (awaiters w) (posted w) t (ended w).

Definition set_ended (f : gset handle) (w : World) : World :=
  mkWorld (heap w) (ctxs w) (awaiters w) (posted w) (trace w) f.

(** ** The monad: a call returns; or it does not, because the program runs
    into undefined behaviour (a null or dangling dereference), an uncaught
    [std::bad_optional_access] or [std::abort()]; or the model runs out of
    fuel. *)

Inductive Outcome (A : Type) :=
  | Returns (a : A) (w : World)
  | Crashes
  | OutOfFuel.

Arguments Returns {A} a w.
Arguments Crashes {A}.
Arguments OutOfFuel {A}.

Definition M (A : Type) : Type := World → Outcome A.

Definition ret {A} (a : A) : M A := λ w, Returns a w.

Definition bind {A B} (m : M A) (k : A → M B) : M B :=
  λ w, match m w with
       | Returns a w' => k a w'
       | Crashes => Crashes
       | OutOfFuel => OutOfFuel
       end.

Definition crash {A} : M A := λ _, Crashes.
Definition out_of_fuel {A} : M A := λ _, OutOfFuel.

Notation "'let!' x := m 'in' k" := (bind m (λ x, k))
  (at level 10, x pattern, m at level 100, k at level 200).
Notation "m >> k" := (bind m (λ _, k))
  (at level 65, right associativity).

(** [*p] on a raw pointer or [this]: undefined when the object is gone. *)
Definition load (s : addr) : M PromiseState :=
  λ w, match heap w !! s with
       | Some st => Returns st w
       | None => Crashes
       end.

Definition store (s : addr) (st : PromiseState) : M unit :=
  λ w, Returns tt (set_heap (<[s := st]> (heap w)) w).

(** [weak_ptr::lock()] *)
Definition lock (s : addr) : M (option PromiseState) :=
  λ w, Returns (heap w !! s) w.

Definition log (ev : Event) : M unit :=
  λ w, Returns tt (set_trace (trace w ++ [ev]) w).

(** [std::coroutine_handle<>::destroy()]: the frame is freed; on a coroutine
    whose frame is already gone the call is undefined. *)
Definition destroy (h : handle) : M unit :=
  λ w, if decide (h ∈ ended w) then Crashes
       else Returns tt (set_ended ({[h]} ∪ ended w)
                          (set_trace (trace w ++ [Destroyed h]) w)).

(** Modelled from the spec: [Executor::Post] is pure virtual and the event
    loop that implements it is not part of the sources; the spec gives FIFO
    order within a priority band, and every post of the promise code uses the
    default priority.  A posted closure is the pair built by
    [WrapVariantCallback]. *)
Definition Post (e : Executor) (cb : Callback) (arg : AnyResult) : M unit :=
  λ w, Returns tt (set_posted (posted w ++ [(e, (cb, arg))]) w).

Definition load_ctx (c : addr) : M Ctx :=
  λ w, match ctxs w !! c with
       | Some x => Returns x w
       | None => Crashes
       end.

Definition store_ctx (c : addr) (x : Ctx) : M unit :=
  λ w, Returns tt (set_ctxs (<[c := x]> (ctxs w)) w).

Definition load_awaiter (a : addr) : M PromiseAwaiter :=
  λ w, match awaiters w !! a with
       | Some x => Returns x w
       | None => Crashes
       end.

Definition store_awaiter (a : addr) (x : PromiseAwaiter) : M unit :=
  λ w, Returns tt (set_awaiters (<[a := x]> (awaiters w)) w).

(** A partial C++ operation ([Value()], [Error()], [optional::value()]). *)
Definition must {A} (o : option A) : M A :=
  match o with Some a => ret a | None => crash end.

Definition is_pre (s : PromiseStatus) : bool :=
  match s with kPreResolved | kPreRejected => true | _ => false end.

Definition cancellable (s : PromiseStatus) : bool :=
  match s with kInit | kPreRejected | kPreResolved => true | _ => false end.


(** ** Delivery and settlement ([PromiseStateInternal], [PromiseState])

    The functions below are written against [invoke], the inline call of a
    stored continuation ([InvokeVariantCallback]); the knot is tied by
    [InvokeVariantCallback] further down. *)
Section Delivery.
Variable invoke : Callback → AnyResult → M unit.

Definition RunInExecutor (exec : option Executor) (cb : Callback)
    (val : AnyResult) : M unit :=
  match exec with
  | Some e => Post e cb val
  | None => invoke cb val
  end.

Definition TryInvokeCallback (s : addr) : M unit :=
  let! st := load s in
  match cb_ st with
  | None => ret tt
  | Some cb =>
    if negb (is_pre (status_ st)) then ret tt
    else
      let! val := must (storage_ st) in
      let status' :=
        if decide (status_ st = kPreResolved) then kResolved else kRejected in
      store s (set_status status' (set_storage None (set_cb None st))) >>
      RunInExecutor (exec_ st) cb val
  end.

Definition AddCallback (s : addr) (cb : Callback) (exec : option Executor)
    : M unit :=
  let! st := load s in
  store s (set_cb (Some cb) (set_exec exec st)) >>
  TryInvokeCallback s.

(** The common body of [Resolve] and [Reject] of both specialisations:
    guard on [kInit], set the status, emplace the storage, try to deliver. *)
Definition settle (s : addr) (status' : PromiseStatus) (r : AnyResult)
    : M bool :=
  let! st := load s in
  if decide (status_ st ≠ kInit) then ret false
  else
    store s (set_storage (Some r) (set_status status' st)) >>
    TryInvokeCallback s >>
    ret true.

(** [PromiseState<T, E>::Reject] and [::Resolve] *)
Definition Reject (s : addr) (err : Err) : M bool :=
  settle s kPreRejected (OfT (kError err)).

Definition Resolve (s : addr) (v : Val) : M bool :=
  settle s kPreResolved (OfT (kValue v)).

(** [PromiseState<void, E>::Reject] and [::Resolve] *)
Definition Reject_void (s : addr) (err : Err) : M bool :=
  settle s kPreRejected (OfVoid (mkResultVoid (Some err))).

Definition Resolve_void (s : addr) : M bool :=
  settle s kPreResolved (OfVoid (mkResultVoid None)).

(** [this->Watch(other)]: the downstream [this] owns the upstream [other]. *)
Definition Watch (this other : addr) : M unit :=
  let! st := load this in
  store this (set_prev (Some other) st) >>
  let! ot := load other in
  store other (set_next (Some this) ot).

(** [Attach], specialisation 1 (the continuation returns [void]) *)
Definition Attach (s : addr) (callback : UserFn) (exec : option Executor)
    : M unit :=
  AddCallback s (CbVoid s callback) exec.

(** [Attach], specialisation 2 (the continuation returns a [Result]) *)
Definition Attach_result (s next : addr) (callback : Result → Result)
    (exec : option Executor) : M unit :=
  Watch next s >>
  AddCallback s (CbResult s callback) exec.

(** [Attach], specialisation 3 (the continuation returns a [Promise]) *)
Definition Attach_promise (s next : addr) (callback : Result → addr)
    (exec : option Executor) : M unit :=
  Watch next s >>
  AddCallback s (CbPromise s callback) exec.

(** [PropagateResult(void* result)]: [result] is the pointer it is given;
    the test is on that pointer. *)
Definition PropagateResult (s : addr) (result : option Result) : M unit :=
  match result with
  | Some r =>
    let! v := must (Value r) in
    Resolve s v >> ret tt
  | None => crash
  end.

(** [PropagatePromise(void* promise)] *)
Definition PropagatePromise (s : addr) (inner_promise : addr) : M unit :=
  Attach_result inner_promise s (λ r, r) None.

(** ** [Resolver<T, E>] and [Resolver<void, E>] *)

Definition Resolver_Reject (stat : addr) (e : Err) : M bool :=
  let! o := lock stat in
  match o with Some _ => Reject stat e | None => ret false end.

Definition Resolver_Resolve (stat : addr) (v : Val) : M bool :=
  let! o := lock stat in
  match o with Some _ => Resolve stat v | None => ret false end.

Definition Resolver_Reject_void (stat : addr) (e : Err) : M bool :=
  let! o := lock stat in
  match o with Some _ => Reject_void stat e | None => ret false end.

Definition Resolver_Resolve_void (stat : addr) : M bool :=
  let! o := lock stat in
  match o with Some _ => Resolve_void stat | None => ret false end.

Definition Resolver_GetStatus (stat : addr) : M (option PromiseStatus) :=
  let! o := lock stat in
  ret (status_ <$> o).

(** ** The bodies of the library's own [void] continuations *)

(** [ctx->results[idx] = ...] and [ctx->errors[idx] = ...]: [operator[]]
    out of range is undefined. *)
Definition assign {A} (l : list A) (idx : nat) (x : A) : M (list A) :=
  if decide (idx < length l) then ret (<[idx := x]> l) else crash.

(** The per-input lambda of [MkAllPromise] *)
Definition all_callback (void_v : bool) (idx : nat) (ctx resolver : addr)
    (r : AnyResult) : M unit :=
  if AnyIsError r then
    let! e := must (AnyError r) in
    (if void_v then Resolver_Reject_void resolver e
     else Resolver_Reject resolver e) >>
    ret tt
  else
    let! c := load_ctx ctx in
    match c with
    | AllCtx success_counter results =>
      let! results' :=
        (if void_v then ret results
         else let! v := must (AnyValue r) in assign results idx v) in
      let success_counter' := pre_decrement success_counter in
      store_ctx ctx (AllCtx success_counter' results') >>
      if decide (0 < success_counter')%Z then ret tt
      else
        (if void_v then Resolver_Resolve_void resolver
         else Resolver_Resolve resolver (Vec results')) >>
        ret tt
    | AnyCtx _ _ => crash
    end.

(** The per-input lambda of [MkAnyPromise] *)
Definition any_callback (void_v : bool) (idx : nat) (ctx resolver : addr)
    (r : AnyResult) : M unit :=
  if AnyIsError r then
    let! e := must (AnyError r) in
    let! c := load_ctx ctx in
    match c with
    | AnyCtx failure_counter errors =>
      let! errors' := assign errors idx e in
      let failure_counter' := pre_decrement failure_counter in
      store_ctx ctx (AnyCtx failure_counter' errors') >>
      if decide (failure_counter' = 0)%Z then
        (if void_v then Resolver_Reject_void resolver (VecE errors')
         else Resolver_Reject resolver (VecE errors')) >>
        ret tt
      else ret tt
    | AllCtx _ _ => crash
    end
  else
    (if void_v then Resolver_Resolve_void resolver
     else let! v := must (AnyValue r) in Resolver_Resolve resolver v) >>
    ret tt.

(** The per-input lambda of [MkRacePromise] *)
Definition race_callback (void_v : bool) (resolver : addr) (r : AnyResult)
    : M unit :=
  if AnyIsError r then
    let! e := must (AnyError r) in
    (if void_v then Resolver_Reject_void resolver e
     else Resolver_Reject resolver e) >>
    ret tt
  else
    (if void_v then Resolver_Resolve_void resolver
     else let! v := must (AnyValue r) in Resolver_Resolve resolver v) >>
    ret tt.

(** The lambda of [await_suspend]: [res_ = std::move(r); handle.resume()].
    What the resumed coroutine goes on to do is outside the model; the resume
    is recorded. *)
Definition await_suspend_callback (awaiter : addr) (h : handle)
    (r : AnyResult) : M unit :=
  let! a := load_awaiter awaiter in
  store_awaiter awaiter (mkAwaiter (promise_ a) r) >>
  log (Resumed h).

(** The lambda of [await_resume]: [res_ = std::move(r)] *)
Definition await_resume_callback (awaiter : addr) (r : AnyResult) : M unit :=
  let! a := load_awaiter awaiter in
  store_awaiter awaiter (mkAwaiter (promise_ a) r).

Definition call_user (f : UserFn) (r : AnyResult) : M unit :=
  match f with
  | FnOpaque name => log (Called name r)
  | FnAll void_v idx ctx resolver => all_callback void_v idx ctx resolver r
  | FnAny void_v idx ctx resolver => any_callback void_v idx ctx resolver r
  | FnRace void_v resolver => race_callback void_v resolver r
  | FnAwaitSuspend awaiter h => await_suspend_callback awaiter h r
  | FnAwaitResume awaiter => await_resume_callback awaiter r
  end.

(** The bodies of the lambdas built by [Attach].  [next_propagator()] of a
    [PromiseState<T, E>] is [next_->propagator()], the downstream state
    itself, or null when there is none; it is read before [f] runs. *)
Definition call_callback (cb : Callback) (v : AnyResult) : M unit :=
  match cb with
  | CbVoid weak_promise f =>
    let! p := lock weak_promise in
    match p with
    | Some _ => call_user f v
    | None => ret tt
    end
  | CbResult weak_state f =>
    let! state_ptr := lock weak_state in
    match state_ptr with
    | Some st =>
      let pp := next_ st in
      let! r := must (as_result v) in
      let result := f r in
      match pp with
      | Some b => PropagateResult b (Some result)
      | None => ret tt
      end
    | None => ret tt
    end
  | CbPromise weak_state f =>
    let! state_ptr := lock weak_state in
    match state_ptr with
    | Some st =>
      let pp := next_ st in
      let! r := must (as_result v) in
      let inner_promise := f r in
      match pp with
      | Some b => PropagatePromise b inner_promise
      | None => ret tt
      end
    | None => ret tt
    end
  end.

End Delivery.

(** [InvokeVariantCallback]: the call of a stored continuation.  Each call
    is recorded in the trace. *)
Fixpoint InvokeVariantCallback (fuel : nat) (cb : Callback) (v : AnyResult)
    : M unit :=
  match fuel with
  | O => out_of_fuel
  | S n => log (Invoked cb v) >> call_callback (InvokeVariantCallback n) cb v
  end.

(** ** Cancellation ([PromiseStateBase::Cancel], [OnCancel]) *)
Section Cancellation.
Variable cancel_next : addr → M bool.

Definition OnCancel (s : addr) : M bool :=
  let! st := load s in
  store s (set_storage None (set_cb None st)) >>
  match next_ st with
  | Some n => cancel_next n
  | None => ret true
  end.

Definition Cancel_body (s : addr) : M bool :=
  let! st := load s in
  if cancellable (status_ st) then
    store s (set_status kCancelled st) >>
    (match co_handle_ st with
     | Some h => destroy h
     | None => ret tt
     end) >>
    OnCancel s
  else ret false.

End Cancellation.

Fixpoint Cancel (fuel : nat) (s : addr) : M bool :=
  match fuel with
  | O => out_of_fuel
  | S n => Cancel_body (Cancel n) s
  end.

Definition Resolver_Cancel (fuel : nat) (stat : addr) : M bool :=
  let! o := lock stat in
  match o with Some _ => Cancel fuel stat | None => ret false end.

Definition AttachCoroutineHandle (s : addr) (h : handle) : M unit :=
  let! st := load s in
  store s (set_co_handle (Some h) st).

(** ** [Promise<T, E>] and [Promise<void, E>]

    A promise handle is the address of its state ([stat_]); a resolver is the
    same address behind a weak pointer. *)
Section Api.
Variable invoke : Callback → AnyResult → M unit.

(** [Promise(Executor* exec)]: [std::make_shared<PromiseState<T, E>>(exec)] *)
Definition Promise_new (exec : option Executor) : M addr :=
  λ w, let a := fresh (dom (heap w)) in
       Returns a (set_heap (<[a := new_state exec]> (heap w)) w).

Definition GetStatus (p : addr) : M PromiseStatus :=
  let! st := load p in ret (status_ st).

Definition IsPending (p : addr) : M bool :=
  let! status := GetStatus p in
  ret (bool_decide (status = kPreResolved) || bool_decide (status = kPreRejected)).

Definition HasHandler (p : addr) : M bool :=
  let! st := load p in
  ret (match cb_ st with Some _ => true | None => false end).

Definition GetExecutor (p : addr) : M (option Executor) :=
  let! st := load p in ret (exec_ st).

Definition PreferExecutor (p : addr) (prefer : option Executor)
    : M (option Executor) :=
  match prefer with
  | Some e => ret (Some e)
  | None => GetExecutor p
  end.

(** [Then], the return type of the continuation is [void] *)
Definition Then (p : addr) (callback : UserFn) (exec : option Executor)
    : M unit :=
  Attach invoke p callback exec.

(** [Then], the return type of the continuation is a promise *)
Definition Then_promise (p : addr) (callback : Result → addr)
    (exec : option Executor) : M addr :=
  let! e := PreferExecutor p exec in
  let! next_promise := Promise_new e in
  Attach_promise invoke p next_promise callback exec >>
  ret next_promise.

(** [Then], the return type of the continuation is a result *)
Definition Then_result (p : addr) (callback : Result → Result)
    (exec : option Executor) : M addr :=
  let! e := PreferExecutor p exec in
  let! next_promise := Promise_new e in
  Attach_result invoke p next_promise callback exec >>
  ret next_promise.

(** ** Aggregate combinators *)









(** ** The coroutine adapter *)

(** [CoroutineTrait<T, E>::promise_type::return_value], three overloads *)
Definition return_value_T (promise : addr) (val : Val) : M unit :=
  Resolver_Resolve invoke promise val >> ret tt.

Definition return_value_E (promise : addr) (e : Err) : M unit :=
  Resolver_Reject invoke promise e >> ret tt.

Definition return_value_Result (promise : addr) (r : Result) : M unit :=
  if to_bool r then
    let! v := must (Value r) in
    Resolver_Resolve invoke promise v >> ret tt
  else
    let! e := must (Error r) in
    Resolver_Reject invoke promise e >> ret tt.

(** [CoroutineTrait<void, E>::promise_type::return_value], two overloads *)
Definition return_value_void_E (promise : addr) (e : Err) : M unit :=
  Resolver_Reject_void invoke promise e >> ret tt.

Definition return_value_void_Result (promise : addr) (r : ResultVoid)
    : M unit :=
  if negb (IsValue_void r) then
    Resolver_Resolve_void invoke promise >> ret tt
  else
    let! e := must (Error_void r) in
    Resolver_Reject_void invoke promise e >> ret tt.

(** [final_suspend()] returns [std::suspend_never]: a coroutine that runs to
    its end does not suspend there, its frame is freed, and the handle the
    state got from [get_return_object] dangles from then on ([co_handle_] is
    never reset). *)
Definition final_suspend (h : handle) : M unit :=
  λ w, Returns tt (set_ended ({[h]} ∪ ended w) w).

(** [co_return val;] in the coroutine [h] whose promise is [promise]:
    [return_value(val)], then [final_suspend()]. *)
Definition co_return (promise : addr) (h : handle) (val : Val) : M unit :=
  return_value_T promise val >> final_suspend h.

(** [operator co_await]: a [PromiseAwaiter] on the shared state, with a
    default-constructed [res_]. *)
Definition operator_co_await (void_v : bool) (p : addr) : M addr :=
  λ w, let a := fresh (dom (awaiters w)) in
       let res := if void_v then OfVoid (mkResultVoid None) else OfT kNull in
       Returns a (set_awaiters (<[a := mkAwaiter p res]> (awaiters w)) w).

Definition await_ready (awaiter : addr) : M bool :=
  let! a := load_awaiter awaiter in
  IsPending (promise_ a).

(** [current] is [EventLoop::Current()]. *)
Definition await_suspend (awaiter : addr) (h : handle)
    (current : option Executor) : M unit :=
  let! a := load_awaiter awaiter in
  Then (promise_ a) (FnAwaitSuspend awaiter h) current.

Definition await_resume (awaiter : addr) : M AnyResult :=
  let! a := load_awaiter awaiter in
  let! pending := IsPending (promise_ a) in
  (if pending then Then (promise_ a) (FnAwaitResume awaiter) None
   else ret tt) >>
  let! a' := load_awaiter awaiter in
  ret (res_ a').

(** What [co_await p] does in the coroutine [h], by the C++20 rules for an
    await expression: the coroutine goes on with [await_resume()] at once
    when [await_ready()] holds, and suspends through [await_suspend(h)]
    otherwise. *)
Inductive AwaitStep :=
  | Continues (r : AnyResult)
  | Suspends (awaiter : addr).

Definition co_await (void_v : bool) (p : addr) (h : handle)
    (current : option Executor) : M AwaitStep :=
  let! awaiter := operator_co_await void_v p in
  let! ready := await_ready awaiter in
  if ready then
    let! r := await_resume awaiter in ret (Continues r)
  else
    await_suspend awaiter h current >> ret (Suspends awaiter).

End Api.

(** ** The event loop and sequences of operations *)

(** Modelled from the spec: the loop that drains an executor's queue is not
    part of the sources; it takes the oldest closure posted to the executor
    and calls it. *)
Fixpoint take_task (e : Executor) (q : list (Executor * Task))
    : option (Task * list (Executor * Task)) :=
  match q with
  | [] => None
  | (e', t) :: rest =>
    if decide (e' = e) then Some (t, rest)
    else match take_task e rest with
         | Some (t', rest') => Some (t', (e', t) :: rest')
         | None => None
         end
  end.

Definition RunOne (fuel : nat) (e : Executor) : M unit :=
  λ w, match take_task e (posted w) with
       | Some ((cb, arg), rest) =>
         InvokeVariantCallback fuel cb arg (set_posted rest w)
       | None => Returns tt w
       end.

(** The operations a client performs on the promises of a world. *)
Inductive Op :=
  | OpResolve (s : addr) (v : Val)
  | OpResolveVoid (s : addr)
  | OpReject (s : addr) (e : Err)
  | OpRejectVoid (s : addr) (e : Err)
  | OpCancel (s : addr)
  | OpThen (s : addr) (f : UserFn) (exec : option Executor)
  | OpThenResult (s : addr) (f : Result → Result) (exec : option Executor)
  | OpThenPromise (s : addr) (f : Result → addr) (exec : option Executor)
  | OpNew (exec : option Executor)
  | OpRunOne (e : Executor).

Definition run_op (fuel : nat) (op : Op) : M unit :=
  let invoke := InvokeVariantCallback fuel in
  match op with
  | OpResolve s v => Resolver_Resolve invoke s v >> ret tt
  | OpResolveVoid s => Resolver_Resolve_void invoke s >> ret tt
  | OpReject s e => Resolver_Reject invoke s e >> ret tt
  | OpRejectVoid s e => Resolver_Reject_void invoke s e >> ret tt
  | OpCancel s => Resolver_Cancel fuel s >> ret tt
  | OpThen s f exec => Then invoke s f exec
  | OpThenResult s f exec => Then_result invoke s f exec >> ret tt
  | OpThenPromise s f exec => Then_promise invoke s f exec >> ret tt
  | OpNew exec => Promise_new exec >> ret tt
  | OpRunOne e => RunOne fuel e
  end.

Fixpoint run_ops (fuel : nat) (ops : list Op) : M unit :=
  match ops with
  | [] => ret tt
  | op :: rest => run_op fuel op >> run_ops fuel rest
  end.

(** The admissible moves of a status. *)
Inductive status_step : PromiseStatus → PromiseStatus → Prop :=
  | step_resolve : status_step kInit kPreResolved
  | step_deliver_value : status_step kPreResolved kResolved
  | step_reject : status_step kInit kPreRejected
  | step_deliver_error : status_step kPreRejected kRejected
  | step_cancel s : cancellable s = true → status_step s kCancelled.

(** Resources the recursion of delivery and cancellation consumes: every
    nested call is preceded by a status that moved forward. *)
Definition rank (s : PromiseStatus) : nat :=
  match s with
  | kInit => 2
  | kPreResolved | kPreRejected => 1
  | _ => 0
  end.

Definition rank_sum (h : gmap addr PromiseState) : nat :=
  map_fold (λ _ st acc, rank (status_ st) + acc) 0 h.

(** ** Well-formed worlds and the order on worlds *)

Definition is_delivered (s : PromiseStatus) : bool :=
  match s with kResolved | kRejected => true | _ => false end.

Definition has_delivered (w : World) (s : addr) : Prop :=
  ∃ st, heap w !! s = Some st ∧ is_delivered (status_ st) = true.

(** A stored continuation is the one attached to the state that stores it,
    and a posted closure belongs to a state that has delivered.  The
    coroutine of a state that can still be cancelled has its frame (it is
    suspended, and [Cancel] may destroy it), and no two states hold the
    handle of one coroutine ([get_return_object] gives each state its
    own). *)
Definition wf (w : World) : Prop :=
  (∀ s st cb, heap w !! s = Some st → cb_ st = Some cb → owner cb = s) ∧
  (∀ e cb v, (e, (cb, v)) ∈ posted w → has_delivered w (owner cb)) ∧
  (∀ s st h, heap w !! s = Some st → co_handle_ st = Some h →
     cancellable (status_ st) = true → h ∉ ended w) ∧
  (∀ s s' st st' h, heap w !! s = Some st → heap w !! s' = Some st' →
     co_handle_ st = Some h → co_handle_ st' = Some h → s = s').

(** Every state of [w] is still there in [w'], its status further along;
    the status of a state that is new in [w'] has moved on from [kInit]. *)
Definition advances (w w' : World) : Prop :=
  (∀ s st, heap w !! s = Some st →
     ∃ st', heap w' !! s = Some st' ∧
            rtc status_step (status_ st) (status_ st')) ∧
  (∀ s st', heap w !! s = None → heap w' !! s = Some st' →
     rtc status_step kInit (status_ st')).

(** The continuations called between [w] and [w'] belong to states that have
    delivered. *)
Definition calls_delivered (w w' : World) : Prop :=
  ∃ tr, trace w' = trace w ++ tr ∧
    ∀ cb v, Invoked cb v ∈ tr → has_delivered w' (owner cb).

(** [w'] is a future of [w] in which the rank grew by at most [k]. *)
Definition future (k : nat) (w w' : World) : Prop :=
  advances w w' ∧
  rank_sum (heap w') ≤ rank_sum (heap w) + k ∧
  (wf w → wf w' ∧ calls_delivered w w').

(** [m] run from [w] does not run out of fuel, and [Q] holds when it
    returns. *)
Definition wp {A} (m : M A) (w : World) (Q : A → World → Prop) : Prop :=
  match m w with
  | Returns a w' => Q a w'
  | Crashes => True
  | OutOfFuel => False
  end.

(** [m], run from a world of rank at most [n], does not run out of fuel, and
    when it returns the world is a future of the one it started from. *)
Definition sound (n k : nat) {A} (m : M A) : Prop :=
  ∀ w, rank_sum (heap w) ≤ n → wp m w (λ _ w', future k w w').

(** What delivery needs of the inline call it is given: soundness from
    worlds of rank below [n] in which the continuation's state has
    delivered. *)
Definition good_invoke (n : nat) (invoke : Callback → AnyResult → M unit)
    : Prop :=
  ∀ cb v w, rank_sum (heap w) < n →
    wp (invoke cb v) w (λ _ w',
      advances w w' ∧
      rank_sum (heap w') ≤ rank_sum (heap w) ∧
      (wf w → has_delivered w (owner cb) → wf w' ∧ calls_delivered w w')).

(** A settling call [m], made on a state that is [st] in [w], returns
    [true] exactly from [kInit]: from any other status it returns [false] and
    changes nothing; from [kInit] it returns [true] whenever it returns, and
    it does return when delivery cannot run a continuation inline. *)
Definition true_iff_Init (m : M bool) (w : World) (st : PromiseState) : Prop :=
  (status_ st ≠ kInit → m w = Returns false w) ∧
  (status_ st = kInit → wp m w (λ b _, b = true)) ∧
  (status_ st = kInit → cb_ st = None ∨ is_Some (exec_ st) →
   ∃ w', m w = Returns true w').

Definition empty_world : World := mkWorld ∅ ∅ ∅ [] [] ∅.

(** What [Cancel] leaves of the state it cancels. *)
Definition cancel_state (st : PromiseState) : PromiseState :=
  set_storage None (set_cb None (set_status kCancelled st)).

(** The coroutine of [st], if it is one's promise, still has its frame. *)
Definition frame_live (w : World) (st : PromiseState) : Prop :=
  ∀ h, co_handle_ st = Some h → h ∉ ended w.

(** [w] after the coroutine of [st] has been destroyed. *)
Definition destroyed (st : PromiseState) (w : World) : World :=
  match co_handle_ st with
  | Some h =>
    set_ended ({[h]} ∪ ended w) (set_trace (trace w ++ [Destroyed h]) w)
  | None => w
  end.

(** [w] after [Cancel] has dealt with the state [s] itself, before it turns
    to the downstream. *)
Definition cancelled_here (s : addr) (st : PromiseState) (w : World)
    : World :=
  set_heap (<[s := cancel_state st]> (heap w)) (destroyed st w).


(** ** Scenarios for the aggregate combinators

    The inputs of a combinator are named by their position; a client settles
    or cancels an input through its resolver, and the loop delivers posted
    closures. *)
Inductive InputOp :=
  | InResolve (i : nat) (v : Val)
  | InReject (i : nat) (e : Err)
  | InCancel (i : nat)
  | InRunOne (e : Executor).

Definition run_input (fuel : nat) (its : list addr) (op : InputOp) : M unit :=
  match op with
  | InResolve i v =>
    match its !! i with Some p => run_op fuel (OpResolve p v) | None => ret tt end
  | InReject i e =>
    match its !! i with Some p => run_op fuel (OpReject p e) | None => ret tt end
  | InCancel i =>
    match its !! i with Some p => run_op fuel (OpCancel p) | None => ret tt end
  | InRunOne e => run_op fuel (OpRunOne e)
  end.

Fixpoint run_inputs (fuel : nat) (its : list addr) (ops : list InputOp)
    : M unit :=
  match ops with
  | [] => ret tt
  | op :: rest => run_input fuel its op >> run_inputs fuel its rest
  end.











(** A promise nobody has attached a continuation to holds the result it
    was settled with. *)
Definition resolved_with (w : World) (p : addr) (v : Val) : Prop :=
  ∃ st, heap w !! p = Some st ∧ status_ st = kPreResolved ∧
        storage_ st = Some (OfT (kValue v)).


Definition rejected_with (w : World) (p : addr) (e : Err) : Prop :=
  ∃ st, heap w !! p = Some st ∧ status_ st = kPreRejected ∧
        storage_ st = Some (OfT (kError e)).





(** * Lemmas *)

Lemma rank_sum_insert_None (h : gmap addr PromiseState) s st :
  h !! s = None →
  rank_sum (<[s := st]> h) = rank (status_ st) + rank_sum h.
Proof.
  intros Hs. unfold rank_sum.
  rewrite map_fold_insert_L; [done | intros; lia | done].
Qed.

Lemma rank_sum_delete (h : gmap addr PromiseState) s st :
  h !! s = Some st →
  rank_sum h = rank (status_ st) + rank_sum (delete s h).
Proof.
  intros Hs. unfold rank_sum.
  by rewrite (map_fold_delete_L _ _ s st h); [| intros; lia |].
Qed.

Lemma rank_sum_insert_Some (h : gmap addr PromiseState) s st st' :
  h !! s = Some st →
  rank_sum (<[s := st']> h) + rank (status_ st) =
  rank (status_ st') + rank_sum h.
Proof.
  intros Hs. rewrite <- (insert_delete_eq h s st').
  rewrite rank_sum_insert_None by apply lookup_delete_eq.
  rewrite (rank_sum_delete h s st Hs). lia.
Qed.

Lemma status_step_rank s s' : status_step s s' → rank s' < rank s.
Proof. destruct 1 as [| | | |[]]; simpl in *; try lia; discriminate. Qed.

Lemma rtc_status_rank s s' : rtc status_step s s' → rank s' ≤ rank s.
Proof.
  induction 1 as [|x y z Hxy _ IH]; [done|].
  apply status_step_rank in Hxy. lia.
Qed.

Lemma delivered_absorbing s s' :
  is_delivered s = true → rtc status_step s s' → s' = s.
Proof.
  intros Hd Hrtc. destruct Hrtc as [|x y z Hxy _]; [done|].
  destruct Hxy as [| | | |[]]; simpl in *; discriminate.
Qed.


Lemma cancellable_back s s' :
  rtc status_step s s' → cancellable s' = true → cancellable s = true.
Proof.
  induction 1 as [|x y z Hxy _ IH]; [done|]. intros Hz.
  specialize (IH Hz). destruct Hxy; simpl in *; done.
Qed.

Lemma advances_refl w : advances w w.
Proof.
  split; [intros s st Hs; eauto using rtc_refl|].
  intros s st' Hn Hs. congruence.
Qed.

Lemma advances_trans w1 w2 w3 :
  advances w1 w2 → advances w2 w3 → advances w1 w3.
Proof.
  intros [H12 N12] [H23 N23]. split.
  - intros s st Hs.
    destruct (H12 s st Hs) as (st2 & Hs2 & Hr2).
    destruct (H23 s st2 Hs2) as (st3 & Hs3 & Hr3).
    exists st3. split; [done|]. by etrans.
  - intros s st3 Hn Hs3. destruct (heap w2 !! s) as [st2|] eqn:Hs2.
    + destruct (H23 s st2 Hs2) as (st3' & Hs3' & Hr3).
      assert (st3' = st3) by congruence. subst st3'.
      etrans; [by eapply N12|done].
    + by eapply N23.
Qed.

Lemma has_delivered_advances w w' s :
  has_delivered w s → advances w w' → has_delivered w' s.
Proof.
  intros (st & Hs & Hd) [Hadv _].
  destruct (Hadv _ _ Hs) as (st' & Hs' & Hr).
  exists st'. split; [done|]. by rewrite (delivered_absorbing _ _ Hd Hr).
Qed.

Lemma calls_delivered_refl w : calls_delivered w w.
Proof.
  exists []. split; [by rewrite app_nil_r|].
  intros cb v Hin. by apply elem_of_nil in Hin.
Qed.

Lemma calls_delivered_trans w1 w2 w3 :
  calls_delivered w1 w2 → advances w2 w3 → calls_delivered w2 w3 →
  calls_delivered w1 w3.
Proof.
  intros (tr1 & Ht1 & H1) Hadv (tr2 & Ht2 & H2).
  exists (tr1 ++ tr2). split; [by rewrite Ht2, Ht1, app_assoc|].
  intros cb v [Hin|Hin]%elem_of_app; [|by eauto].
  eauto using has_delivered_advances.
Qed.

Lemma future_refl w : future 0 w w.
Proof.
  split; [apply advances_refl|]. split; [lia|].
  intros Hwf. split; [done|apply calls_delivered_refl].
Qed.

Lemma future_trans k1 k2 w1 w2 w3 :
  future k1 w1 w2 → future k2 w2 w3 → future (k1 + k2) w1 w3.
Proof.
  intros (Ha1 & Hr1 & Hw1) (Ha2 & Hr2 & Hw2).
  split; [by eapply advances_trans|]. split; [lia|].
  intros Hwf. destruct (Hw1 Hwf) as [Hwf2 Hc1].
  destruct (Hw2 Hwf2) as [Hwf3 Hc2].
  split; [done|]. by eapply calls_delivered_trans.
Qed.

Lemma future_weaken k k' w w' : k ≤ k' → future k w w' → future k' w w'.
Proof. intros Hk (Ha & Hr & Hw). split; [done|]. split; [lia|done]. Qed.

Ltac no_elems :=
  intros;
  match goal with H : _ ∈ [] |- _ => by apply elem_of_nil in H end.

Lemma wp_bind {A B} (m : M A) (k : A → M B) w Q :
  wp m w (λ a w', wp (k a) w' Q) → wp (bind m k) w Q.
Proof. unfold wp, bind. by destruct (m w). Qed.

Lemma wp_mono {A} (m : M A) w (Q Q' : A → World → Prop) :
  wp m w Q → (∀ a w', Q a w' → Q' a w') → wp m w Q'.
Proof. unfold wp. destruct (m w); auto. Qed.

Lemma sound_ret n {A} (a : A) : sound n 0 (ret a).
Proof. intros w _. apply future_refl. Qed.

Lemma sound_crash n k {A} : sound n k (@crash A).
Proof. by intros w _. Qed.

Lemma sound_bind n k1 k2 {A B} (m : M A) (f : A → M B) :
  sound n k1 m → (∀ a, sound (n + k1) k2 (f a)) →
  sound n (k1 + k2) (bind m f).
Proof.
  intros Hm Hf w Hr. apply wp_bind.
  eapply wp_mono; [by apply Hm|]. intros a w' Hfut. simpl in Hfut.
  eapply wp_mono; [apply Hf; destruct Hfut as (_ & ? & _); lia|].
  intros b w'' Hfut'. by eapply future_trans.
Qed.

Lemma sound_weaken n n' k k' {A} (m : M A) :
  n' ≤ n → k ≤ k' → sound n k m → sound n' k' m.
Proof.
  intros Hn Hk Hm w Hr. eapply wp_mono; [apply Hm; lia|].
  intros a w' Hfut. by eapply future_weaken.
Qed.

(** One store into an existing state, with the closures [q] posted after
    it. *)
Lemma store_post_future w s st st' q :
  heap w !! s = Some st →
  rtc status_step (status_ st) (status_ st') →
  (∀ cb, cb_ st' = Some cb → cb_ st = Some cb ∨ owner cb = s) →
  co_handle_ st' = co_handle_ st →
  (wf w → ∀ e cb v, (e, (cb, v)) ∈ q →
     has_delivered (set_heap (<[s := st']> (heap w)) w) (owner cb)) →
  future 0 w (set_posted (posted w ++ q) (set_heap (<[s := st']> (heap w)) w)).
Proof.
  intros Hs Hstep Hown Hco Hq.
  set (w1 := set_heap (<[s := st']> (heap w)) w) in *.
  assert (Hadv : advances w w1).
  { split.
    - intros s0 st0 Hs0. simpl. destruct (decide (s = s0)) as [->|Hne].
      + rewrite lookup_insert_eq. exists st'. split; [done|]. congruence.
      + rewrite lookup_insert_ne by done. eauto using rtc_refl.
    - intros s0 st0 Hn. simpl. destruct (decide (s = s0)) as [->|Hne].
      + congruence.
      + rewrite lookup_insert_ne by done. congruence. }
  split; [done|]. split.
  - simpl. pose proof (rank_sum_insert_Some (heap w) s st st' Hs).
    apply rtc_status_rank in Hstep. lia.
  - intros Hwf. pose proof Hwf as (Hw1 & Hw2 & Hw3 & Hw4).
    split; [repeat split|].
    + intros s0 st0 cb. simpl. destruct (decide (s = s0)) as [->|Hne].
      * rewrite lookup_insert_eq. intros [= <-] Hcb.
        destruct (Hown cb Hcb); eauto.
      * rewrite lookup_insert_ne by done. apply Hw1.
    + intros e cb v. simpl. intros [Hin|Hin]%elem_of_app.
      * apply (has_delivered_advances w); [by eapply Hw2|exact Hadv].
      * by eapply Hq.
    + intros s0 st0 h. simpl. destruct (decide (s = s0)) as [->|Hne].
      * rewrite lookup_insert_eq. intros [= <-] Hh Hc.
        apply (Hw3 s0 st h Hs); [congruence|].
        by apply (cancellable_back _ _ Hstep).
      * rewrite lookup_insert_ne by done. apply Hw3.
    + intros s0 s1 st0 st1 h. simpl.
      destruct (decide (s0 = s)) as [->|Hne0];
        destruct (decide (s1 = s)) as [->|Hne1]; [done|..];
        rewrite ?lookup_insert_eq, ?lookup_insert_ne by done.
      * intros [= <-] Hs1 Hh0 Hh1. rewrite Hco in Hh0. by eapply Hw4.
      * intros Hs0 [= <-] Hh0 Hh1. rewrite Hco in Hh1. by eapply Hw4.
      * apply Hw4.
    + exists []. split; [by rewrite app_nil_r|]. no_elems.
Qed.

Lemma store_future w s st st' :
  heap w !! s = Some st →
  rtc status_step (status_ st) (status_ st') →
  (∀ cb, cb_ st' = Some cb → cb_ st = Some cb ∨ owner cb = s) →
  co_handle_ st' = co_handle_ st →
  future 0 w (set_heap (<[s := st']> (heap w)) w).
Proof.
  intros Hs Hstep Hown Hco.
  pose proof (store_post_future w s st st' [] Hs Hstep Hown Hco) as Hf.
  simpl in Hf. rewrite app_nil_r in Hf. apply Hf. no_elems.
Qed.

(** A fresh state. *)
Lemma alloc_future w a exec :
  heap w !! a = None →
  future 2 w (set_heap (<[a := new_state exec]> (heap w)) w).
Proof.
  intros Ha.
  assert (Hadv : advances w (set_heap (<[a := new_state exec]> (heap w)) w)).
  { split.
    - intros s st Hs. simpl. rewrite lookup_insert_ne by congruence.
      eauto using rtc_refl.
    - intros s st' Hn. simpl. destruct (decide (a = s)) as [->|Hne].
      + rewrite lookup_insert_eq. by intros [= <-].
      + rewrite lookup_insert_ne by done. congruence. }
  split; [done|]. split.
  - simpl. rewrite rank_sum_insert_None by done. simpl. lia.
  - intros (Hw1 & Hw2 & Hw3 & Hw4). split; [repeat split|].
    + intros s st cb. simpl. destruct (decide (a = s)) as [->|Hne].
      * rewrite lookup_insert_eq. by intros [= <-].
      * rewrite lookup_insert_ne by done. apply Hw1.
    + intros e cb v Hin. eapply has_delivered_advances; [|exact Hadv].
      by eapply Hw2.
    + intros s st h. simpl. destruct (decide (a = s)) as [->|Hne].
      * rewrite lookup_insert_eq. by intros [= <-].
      * rewrite lookup_insert_ne by done. apply Hw3.
    + intros s0 s1 st0 st1 h. simpl.
      destruct (decide (s0 = a)) as [->|Hne0];
        destruct (decide (s1 = a)) as [->|Hne1]; [done|..];
        rewrite ?lookup_insert_eq, ?lookup_insert_ne by done.
      * by intros [= <-].
      * by intros _ [= <-].
      * apply Hw4.
    + exists []. split; [by rewrite app_nil_r|].
      intros cb v Hin. by apply elem_of_nil in Hin.
Qed.

(** A change that leaves the heap alone and appends [tr] to the trace and
    [q] to the queue. *)
Lemma frame_future w w' tr q :
  heap w' = heap w →
  trace w' = trace w ++ tr →
  posted w' = posted w ++ q →
  ended w' = ended w →
  (wf w → ∀ cb v, Invoked cb v ∈ tr → has_delivered w (owner cb)) →
  (wf w → ∀ e cb v, (e, (cb, v)) ∈ q → has_delivered w (owner cb)) →
  future 0 w w'.
Proof.
  intros Hh Ht Hq He Htr Hpost.
  assert (Hdel : ∀ s, has_delivered w s → has_delivered w' s).
  { intros s (st & Hs & Hd). exists st. by rewrite Hh. }
  split; [|split].
  - unfold advances. rewrite Hh.
    split; [intros s st Hs; eauto using rtc_refl|].
    intros s st' Hn Hs. congruence.
  - rewrite Hh. lia.
  - intros Hwf. pose proof Hwf as (Hw1 & Hw2 & Hw3 & Hw4).
    split; [repeat split|].
    + intros s st cb. rewrite Hh. apply Hw1.
    + intros e cb v. rewrite Hq. intros [Hin|Hin]%elem_of_app.
      * apply Hdel. by eapply Hw2.
      * apply Hdel. by eapply Hpost.
    + intros s st h. rewrite Hh, He. apply Hw3.
    + intros s0 s1 st0 st1 h. rewrite Hh. apply Hw4.
    + exists tr. split; [done|]. intros cb v Hin. apply Hdel. by eapply Htr.
Qed.

(** Destroying the coroutine of a state that has just been cancelled. *)
Lemma destroy_future w s st h :
  heap w !! s = Some st → co_handle_ st = Some h →
  cancellable (status_ st) = false →
  wp (destroy h) w (λ _ w', future 0 w w' ∧ heap w' = heap w).
Proof.
  intros Hs Hh Hc. unfold wp, destroy. destruct (decide (h ∈ ended w)); [done|].
  split; [|done]. split; [|split].
  - exact (advances_refl w).
  - simpl. lia.
  - intros (Hw1 & Hw2 & Hw3 & Hw4). split; [repeat split|].
    + exact Hw1.
    + exact Hw2.
    + intros s0 st0 h0 Hs0 Hh0 Hc0. simpl in *.
      apply not_elem_of_union. split; [|by eapply Hw3].
      intros ->%elem_of_singleton.
      assert (s0 = s) by (by eapply Hw4). subst s0. congruence.
    + exact Hw4.
    + exists [Destroyed h]. split; [done|].
      by intros cb v [=]%list_elem_of_singleton.
Qed.

Lemma sound_store_ctx n c x : sound n 0 (store_ctx c x).
Proof.
  intros w _. unfold wp, store_ctx.
  apply (frame_future _ _ [] []); simpl; rewrite ?app_nil_r; try done;
    no_elems.
Qed.

Lemma sound_store_awaiter n a x : sound n 0 (store_awaiter a x).
Proof.
  intros w _. unfold wp, store_awaiter.
  apply (frame_future _ _ [] []); simpl; rewrite ?app_nil_r; try done;
    no_elems.
Qed.

Lemma sound_log n ev :
  (∀ cb v, ev ≠ Invoked cb v) → sound n 0 (log ev).
Proof.
  intros Hev w _. unfold wp, log.
  apply (frame_future _ _ [ev] []); simpl; rewrite ?app_nil_r; try done.
  - intros _ cb v Heq%list_elem_of_singleton. by destruct (Hev cb v).
  - no_elems.
Qed.

Lemma sound_bind0 n {A B} (m : M A) (f : A → M B) :
  sound n 0 m → (∀ a, sound n 0 (f a)) → sound n 0 (bind m f).
Proof.
  intros Hm Hf. apply (sound_bind n 0 0); [done|].
  intros a. eapply sound_weaken; [| |apply Hf]; lia.
Qed.

Lemma sound_pure n {A} (m : M A) :
  (∀ w, m w = Crashes ∨ ∃ a, m w = Returns a w) → sound n 0 m.
Proof.
  intros Hm w _. unfold wp. destruct (Hm w) as [->|[a ->]]; [done|].
  apply future_refl.
Qed.

Lemma sound_load_ctx n c : sound n 0 (load_ctx c).
Proof.
  apply sound_pure. intros w. unfold load_ctx. destruct (ctxs w !! c); eauto.
Qed.

Lemma sound_load_awaiter n a : sound n 0 (load_awaiter a).
Proof.
  apply sound_pure. intros w. unfold load_awaiter.
  destruct (awaiters w !! a); eauto.
Qed.

Lemma sound_must n {A} (o : option A) : sound n 0 (must o).
Proof. apply sound_pure. intros w. destruct o; simpl; eauto. Qed.

Lemma sound_lock n s : sound n 0 (lock s).
Proof. apply sound_pure. intros w. unfold lock. eauto. Qed.

Lemma sound_assign n {A} (l : list A) idx x : sound n 0 (assign l idx x).
Proof. apply sound_pure. intros w. unfold assign. case_decide; eauto. Qed.

Lemma wp_load s w (Q : PromiseState → World → Prop) :
  (∀ st, heap w !! s = Some st → Q st w) → wp (load s) w Q.
Proof. intros HQ. unfold wp, load. destruct (heap w !! s); auto. Qed.

Lemma wp_after n n' k1 k2 {A} (m : M A) w w1 :
  future k1 w w1 → sound n k2 m →
  rank_sum (heap w) ≤ n' → n' + k1 ≤ n →
  wp m w1 (λ _ w', future (k1 + k2) w w').
Proof.
  intros Hf Hm Hr Hn. eapply wp_mono.
  - apply Hm. destruct Hf as (_ & ? & _). lia.
  - intros a w' Hf'. by eapply future_trans.
Qed.

Lemma is_pre_step s :
  is_pre s = true →
  status_step s (if decide (s = kPreResolved) then kResolved else kRejected) ∧
  is_delivered (if decide (s = kPreResolved) then kResolved else kRejected) = true.
Proof. destruct s; simpl; try discriminate; intros _; split; first [constructor|done]. Qed.

Section DeliverySound.
Variable n : nat.
Variable invoke : Callback → AnyResult → M unit.
Hypothesis Hinv : good_invoke n invoke.

Lemma TryInvokeCallback_sound s : sound n 0 (TryInvokeCallback invoke s).
Proof.
  intros w Hr. unfold TryInvokeCallback. apply wp_bind, wp_load.
  intros st Hs. destruct (cb_ st) as [cb|] eqn:Hcb; [|apply future_refl].
  destruct (is_pre (status_ st)) eqn:Hpre; simpl; [|apply future_refl].
  destruct (storage_ st) as [val|]; [|done].
  destruct (is_pre_step _ Hpre) as [Hstep Hdel].
  set (status' := if decide (status_ st = kPreResolved) then kResolved
                  else kRejected) in *.
  set (st' := set_status status' (set_storage None (set_cb None st))).
  set (w1 := set_heap (<[s := st']> (heap w)) w).
  assert (Hlk : heap w1 !! s = Some st') by apply lookup_insert_eq.
  unfold RunInExecutor. destruct (exec_ st) as [e|].
  - unfold wp, bind, must, store, Post. simpl.
    apply (store_post_future w s st st' [(e, (cb, val))]); try done.
    + by apply rtc_once.
    + intros [Hw1 _] e' cb' v' [= -> -> ->]%list_elem_of_singleton.
      rewrite (Hw1 s st cb Hs Hcb). by exists st'.
  - assert (Hf1 : future 0 w w1).
    { apply (store_future w s st st'); try done. by apply rtc_once. }
    assert (Hlt : rank_sum (heap w1) < rank_sum (heap w)).
    { pose proof (rank_sum_insert_Some (heap w) s st st' Hs) as Hrk.
      apply status_step_rank in Hstep. simpl in *. lia. }
    unfold wp, bind, must, store. simpl. fold w1.
    specialize (Hinv cb val w1). unfold wp in Hinv.
    destruct (invoke cb val w1) as [[] w2| |];
      [|done|apply Hinv; clear -Hr Hlt; lia].
    destruct Hinv as (Ha2 & Hr2 & Hw2); [clear -Hr Hlt; lia|].
    destruct Hf1 as (Ha1 & Hr1 & Hwf1).
    split; [by eapply advances_trans|]. split; [lia|].
    intros Hwf. destruct (Hwf1 Hwf) as [Hwf' Hc1].
    destruct Hw2 as [Hwf2 Hc2]; [done| |].
    { destruct Hwf as [Hw1 _]. rewrite (Hw1 s st cb Hs Hcb). by exists st'. }
    split; [done|]. by apply (calls_delivered_trans w w1 w2).
Qed.

Lemma sound_load k s {A} (body : PromiseState → M A) :
  (∀ w st, heap w !! s = Some st → rank_sum (heap w) ≤ n →
     wp (body st) w (λ _ w', future k w w')) →
  sound n k (bind (load s) body).
Proof. intros Hb w Hr. apply wp_bind, wp_load. intros st Hs. by apply Hb. Qed.

Lemma wp_store_then k s st st' {A} (rest : M A) w :
  heap w !! s = Some st →
  rtc status_step (status_ st) (status_ st') →
  (∀ cb, cb_ st' = Some cb → cb_ st = Some cb ∨ owner cb = s) →
  co_handle_ st' = co_handle_ st →
  sound n k rest →
  rank_sum (heap w) ≤ n →
  wp (store s st' >> rest) w (λ _ w', future k w w').
Proof.
  intros Hs Hstep Hown Hco Hrest Hr. apply wp_bind. unfold wp at 1, store.
  apply (wp_after n n 0 k); [by eapply store_future|done|done|lia].
Qed.

Lemma AddCallback_sound s cb exec :
  owner cb = s → sound n 0 (AddCallback invoke s cb exec).
Proof.
  intros Hown. apply sound_load. intros w st Hs Hr.
  eapply wp_store_then; try done.
  - simpl. by intros cb' [= <-]; right.
  - apply TryInvokeCallback_sound.
Qed.

Lemma settle_sound s status' r :
  status_step kInit status' → sound n 0 (settle invoke s status' r).
Proof.
  intros Hstep. apply sound_load. intros w st Hs Hr.
  case_decide as Hst; [apply future_refl|].
  eapply wp_store_then; try done.
  - simpl. rewrite Hst. by apply rtc_once.
  - simpl. auto.
  - apply (sound_bind n 0 0); [apply TryInvokeCallback_sound|].
    intros _. apply sound_ret.
Qed.

Lemma Reject_sound s e : sound n 0 (Reject invoke s e).
Proof. apply settle_sound. constructor. Qed.

Lemma Resolve_sound s v : sound n 0 (Resolve invoke s v).
Proof. apply settle_sound. constructor. Qed.

Lemma Reject_void_sound s e : sound n 0 (Reject_void invoke s e).
Proof. apply settle_sound. constructor. Qed.

Lemma Resolve_void_sound s : sound n 0 (Resolve_void invoke s).
Proof. apply settle_sound. constructor. Qed.

Lemma Watch_sound this other : sound n 0 (Watch this other).
Proof.
  apply sound_load. intros w st Hs Hr.
  eapply wp_store_then; try done; [simpl; auto|].
  apply sound_load. intros w' ot Ho Hr'.
  unfold wp, store. eapply store_future; try done. simpl; auto.
Qed.

Ltac sound_auto :=
  repeat (intros; first
    [ apply Resolve_sound | apply Reject_sound | apply Resolve_void_sound
    | apply Reject_void_sound | apply Watch_sound
    | apply AddCallback_sound; reflexivity
    | apply sound_ret | apply sound_crash
    | apply sound_must | apply sound_lock | apply sound_load_ctx
    | apply sound_load_awaiter | apply sound_store_ctx | apply sound_assign
    | apply sound_store_awaiter | apply sound_log; discriminate
    | apply sound_bind0
    | match goal with
      | |- sound _ _ (if ?b then _ else _) => destruct b
      | |- sound _ _ (match ?x with _ => _ end) => destruct x
      end ]).

Lemma Attach_sound s f exec : sound n 0 (Attach invoke s f exec).
Proof. unfold Attach. sound_auto. Qed.

Lemma Attach_result_sound s next f exec :
  sound n 0 (Attach_result invoke s next f exec).
Proof. unfold Attach_result. sound_auto. Qed.

Lemma Attach_promise_sound s next f exec :
  sound n 0 (Attach_promise invoke s next f exec).
Proof. unfold Attach_promise. sound_auto. Qed.

Lemma PropagateResult_sound s result :
  sound n 0 (PropagateResult invoke s result).
Proof. unfold PropagateResult. sound_auto. Qed.

Lemma PropagatePromise_sound s inner :
  sound n 0 (PropagatePromise invoke s inner).
Proof. apply Attach_result_sound. Qed.

Lemma Resolver_Reject_sound s e : sound n 0 (Resolver_Reject invoke s e).
Proof. unfold Resolver_Reject. sound_auto. Qed.

Lemma Resolver_Resolve_sound s v : sound n 0 (Resolver_Resolve invoke s v).
Proof. unfold Resolver_Resolve. sound_auto. Qed.

Lemma Resolver_Reject_void_sound s e :
  sound n 0 (Resolver_Reject_void invoke s e).
Proof. unfold Resolver_Reject_void. sound_auto. Qed.

Lemma Resolver_Resolve_void_sound s :
  sound n 0 (Resolver_Resolve_void invoke s).
Proof. unfold Resolver_Resolve_void. sound_auto. Qed.

Ltac sound_auto' :=
  repeat first
    [ apply Resolver_Reject_sound | apply Resolver_Resolve_sound
    | apply Resolver_Reject_void_sound | apply Resolver_Resolve_void_sound
    | apply PropagateResult_sound | apply PropagatePromise_sound
    | progress sound_auto ].

Lemma call_user_sound f r : sound n 0 (call_user invoke f r).
Proof.
  destruct f; simpl;
    unfold all_callback, any_callback, race_callback, await_suspend_callback,
      await_resume_callback; sound_auto'.
Qed.

Lemma call_callback_sound cb v : sound n 0 (call_callback invoke cb v).
Proof.
  destruct cb; simpl; sound_auto'; apply call_user_sound.
Qed.

End DeliverySound.

Lemma good_invoke_le n n' invoke :
  n' ≤ n → good_invoke n invoke → good_invoke n' invoke.
Proof. intros Hn Hg cb v w Hr. apply Hg. lia. Qed.

Lemma InvokeVariantCallback_good fuel :
  good_invoke fuel (InvokeVariantCallback fuel).
Proof.
  induction fuel as [|fuel IH]; intros cb v w Hr; [lia|].
  simpl. apply wp_bind. unfold wp at 1, log.
  set (w1 := set_trace (trace w ++ [Invoked cb v]) w).
  eapply wp_mono; [apply (call_callback_sound fuel _ IH cb v w1); simpl; lia|].
  intros [] w' (Ha & Hr' & Hw). simpl in *.
  split; [exact Ha|]. split; [lia|].
  intros Hwf Hdel.
  assert (Hf1 : future 0 w w1).
  { apply (frame_future w w1 [Invoked cb v] []); simpl;
      rewrite ?app_nil_r; try done.
    - by intros _ cb' v' [= -> ->]%list_elem_of_singleton.
    - no_elems. }
  destruct Hf1 as (Ha1 & _ & Hw1). destruct (Hw1 Hwf) as [Hwf1 Hc1].
  destruct (Hw Hwf1) as [Hwf' Hc']. split; [done|].
  by apply (calls_delivered_trans w w1 w').
Qed.

Lemma rank_sum_ge (h : gmap addr PromiseState) s st :
  h !! s = Some st → rank (status_ st) ≤ rank_sum h.
Proof. intros Hs. rewrite (rank_sum_delete h s st Hs). lia. Qed.

Lemma OnCancel_sound n cancel_next s :
  (∀ s', sound n 0 (cancel_next s')) → sound n 0 (OnCancel cancel_next s).
Proof.
  intros Hnext. apply sound_load. intros w st Hs Hr.
  eapply wp_store_then; [exact Hs|done|done|done| |exact Hr].
  destruct (next_ st); [apply Hnext|apply sound_ret].
Qed.

Lemma cancellable_step s :
  cancellable s = true → status_step s kCancelled ∧ 1 ≤ rank s.
Proof.
  intros Hc. split; [by constructor|]. destruct s; simpl in *; try lia; done.
Qed.

Lemma Cancel_body_sound m cancel_next s :
  (∀ s', sound m 0 (cancel_next s')) →
  sound (S m) 0 (Cancel_body cancel_next s).
Proof.
  intros Hnext w Hr. unfold Cancel_body. apply wp_bind, wp_load.
  intros st Hs. destruct (cancellable (status_ st)) eqn:Hc;
    [|apply future_refl].
  destruct (cancellable_step _ Hc) as [Hstep Hrk].
  apply wp_bind. unfold wp at 1, store.
  set (st' := set_status kCancelled st).
  set (w1 := set_heap (<[s := st']> (heap w)) w).
  assert (Hf1 : future 0 w w1).
  { apply (store_future w s st st'); try done; [by apply rtc_once|].
    simpl; auto. }
  assert (Hlt : rank_sum (heap w1) ≤ m).
  { pose proof (rank_sum_insert_Some (heap w) s st st' Hs) as Hrk'.
    simpl in *. lia. }
  apply wp_bind. destruct (co_handle_ st) as [h|] eqn:Hh.
  - eapply wp_mono.
    { apply (destroy_future w1 s st' h); [apply lookup_insert_eq|done..]. }
    intros [] w2 [Hf2 Hheap]. eapply wp_mono.
    { apply (OnCancel_sound m); [done|]. by rewrite Hheap. }
    intros b w' Hf. apply (future_trans 0 0 w w2 w'); [|done].
    by apply (future_trans 0 0 w w1 w2).
  - unfold wp at 1, ret. eapply wp_mono; [by apply (OnCancel_sound m)|].
    intros b w' Hf. by apply (future_trans 0 0 w w1 w').
Qed.

Lemma Cancel_sound m s : sound m 0 (Cancel (S m) s).
Proof.
  revert s. induction m as [|m IH]; intros s.
  - intros w Hr. simpl. unfold Cancel_body. apply wp_bind, wp_load.
    intros st Hs. destruct (cancellable (status_ st)) eqn:Hc;
      [|apply future_refl].
    destruct (cancellable_step _ Hc) as [_ Hrk].
    pose proof (rank_sum_ge _ _ _ Hs). lia.
  - change (Cancel (S (S m)) s) with (Cancel_body (Cancel (S m)) s).
    by apply Cancel_body_sound.
Qed.

Lemma Resolver_Cancel_sound m s : sound m 0 (Resolver_Cancel (S m) s).
Proof.
  unfold Resolver_Cancel. apply sound_bind0; [apply sound_lock|].
  intros [st|]; [apply Cancel_sound|apply sound_ret].
Qed.


Lemma fresh_heap_None (w : World) : heap w !! fresh (dom (heap w)) = None.
Proof. apply not_elem_of_dom, is_fresh. Qed.

Lemma Promise_new_sound n exec : sound n 2 (Promise_new exec).
Proof.
  intros w _. unfold wp, Promise_new. apply alloc_future, fresh_heap_None.
Qed.

Lemma PreferExecutor_sound n p prefer : sound n 0 (PreferExecutor p prefer).
Proof.
  apply sound_pure. intros w. unfold PreferExecutor, GetExecutor, bind, load.
  destruct prefer; simpl; eauto. destruct (heap w !! p); eauto.
Qed.

Lemma Then_sound n invoke p f exec :
  good_invoke n invoke → sound n 0 (Then invoke p f exec).
Proof. intros Hg. by apply Attach_sound. Qed.

Lemma Then_result_sound n invoke p f exec :
  good_invoke (n + 2) invoke → sound n 2 (Then_result invoke p f exec).
Proof.
  intros Hg. unfold Then_result.
  apply (sound_bind n 0 2); [apply PreferExecutor_sound|]. intros e.
  apply (sound_bind (n + 0) 2 0); [apply Promise_new_sound|]. intros next.
  apply sound_bind0; [|intros; apply sound_ret].
  apply Attach_result_sound. eapply good_invoke_le; [|exact Hg]. lia.
Qed.

Lemma Then_promise_sound n invoke p f exec :
  good_invoke (n + 2) invoke → sound n 2 (Then_promise invoke p f exec).
Proof.
  intros Hg. unfold Then_promise.
  apply (sound_bind n 0 2); [apply PreferExecutor_sound|]. intros e.
  apply (sound_bind (n + 0) 2 0); [apply Promise_new_sound|]. intros next.
  apply sound_bind0; [|intros; apply sound_ret].
  apply Attach_promise_sound. eapply good_invoke_le; [|exact Hg]. lia.
Qed.

Lemma take_task_spec e q t rest :
  take_task e q = Some (t, rest) →
  (e, t) ∈ q ∧ ∀ x, x ∈ rest → x ∈ q.
Proof.
  revert t rest. induction q as [|[e' t'] q IH]; intros t rest; [done|].
  simpl. case_decide as He.
  - intros [= <- <-]. subst. split; [left|]. intros x Hx. by right.
  - destruct (take_task e q) as [[t1 rest1]|]; [|done].
    intros [= <- <-]. destruct (IH t1 rest1 eq_refl) as [Hin Hsub].
    split; [by right|]. intros x [->|Hx]%elem_of_cons; [left|right; auto].
Qed.

Lemma RunOne_sound m e : sound m 0 (RunOne (S m) e).
Proof.
  intros w Hr. unfold wp, RunOne.
  destruct (take_task e (posted w)) as [[[cb arg] rest]|] eqn:Htake;
    [|apply future_refl].
  destruct (take_task_spec _ _ _ _ Htake) as [Hin Hsub].
  set (w1 := set_posted rest w).
  pose proof (InvokeVariantCallback_good (S m) cb arg w1) as Hg.
  unfold wp in Hg.
  destruct (InvokeVariantCallback (S m) cb arg w1) as [[] w'| |];
    [|done|apply Hg; simpl; lia].
  destruct Hg as (Ha & Hr' & Hw); [simpl; lia|].
  split; [exact Ha|]. split; [simpl in *; lia|].
  intros (Hw1 & Hw2 & Hw3 & Hw4).
  assert (Hwf1 : wf w1).
  { split; [exact Hw1|]. split; [|done]. intros e' cb' v' Hin'.
    simpl in Hin'. apply Hsub in Hin'. by apply (Hw2 e' cb' v'). }
  destruct (Hw Hwf1) as [Hwf' (tr & Htr & Hc)]; [by apply (Hw2 e cb arg)|].
  split; [done|]. by exists tr.
Qed.

Lemma run_op_sound m op : sound m 2 (run_op (S (m + 2)) op).
Proof.
  pose proof (InvokeVariantCallback_good (S (m + 2))) as Hg.
  assert (Hgm : good_invoke m (InvokeVariantCallback (S (m + 2))))
    by (eapply good_invoke_le; [|exact Hg]; lia).
  assert (Hgm2 : good_invoke (m + 2) (InvokeVariantCallback (S (m + 2))))
    by (eapply good_invoke_le; [|exact Hg]; lia).
  destruct op; simpl.
  - eapply sound_weaken; [| |apply sound_bind0;
      [by apply Resolver_Resolve_sound|intros; apply sound_ret]]; lia.
  - eapply sound_weaken; [| |apply sound_bind0;
      [by apply Resolver_Resolve_void_sound|intros; apply sound_ret]]; lia.
  - eapply sound_weaken; [| |apply sound_bind0;
      [by apply Resolver_Reject_sound|intros; apply sound_ret]]; lia.
  - eapply sound_weaken; [| |apply sound_bind0;
      [by apply Resolver_Reject_void_sound|intros; apply sound_ret]]; lia.
  - eapply (sound_weaken (m + 2)); [| |apply sound_bind0;
      [by apply Resolver_Cancel_sound|intros; apply sound_ret]]; lia.
  - eapply sound_weaken; [| |by apply Then_sound]; lia.
  - apply (sound_bind m 2 0); [by apply Then_result_sound|].
    intros; apply sound_ret.
  - apply (sound_bind m 2 0); [by apply Then_promise_sound|].
    intros; apply sound_ret.
  - apply (sound_bind m 2 0); [by apply Promise_new_sound|].
    intros; apply sound_ret.
  - eapply (sound_weaken (m + 2)); [| |apply RunOne_sound]; lia.
Qed.

Lemma run_ops_sound ops : ∀ m w,
  rank_sum (heap w) + 2 * length ops ≤ m →
  wp (run_ops (S (m + 2)) ops) w (λ _ w', future (2 * length ops) w w').
Proof.
  induction ops as [|op ops IH]; intros m w Hr; [apply future_refl|].
  simpl run_ops. apply wp_bind.
  eapply wp_mono; [apply (run_op_sound m op w); simpl in Hr; lia|].
  intros [] w1 Hf1. simpl in Hf1.
  eapply wp_mono.
  - apply (IH m w1). destruct Hf1 as (_ & ? & _). simpl in Hr. lia.
  - intros [] w2 Hf2. simpl in Hf2.
    eapply future_weaken; [|by eapply future_trans]. simpl. lia.
Qed.

(** Running the monad on a known world, one call at a time. *)

Lemma bind_ret {A B} (a : A) (k : A → M B) w : bind (ret a) k w = k a w.
Proof. done. Qed.

Lemma world_ext (w w' : World) :
  heap w = heap w' → ctxs w = ctxs w' → awaiters w = awaiters w' →
  posted w = posted w' → trace w = trace w' → ended w = ended w' → w = w'.
Proof. destruct w, w'; simpl; intros; by subst. Qed.

Lemma bind_load {B} s st (k : PromiseState → M B) w :
  heap w !! s = Some st → bind (load s) k w = k st w.
Proof. intros Hs. unfold bind, load. by rewrite Hs. Qed.

Lemma bind_lock {B} s (k : option PromiseState → M B) w :
  bind (lock s) k w = k (heap w !! s) w.
Proof. done. Qed.

Lemma bind_store {B} s st (k : unit → M B) w :
  bind (store s st) k w = k tt (set_heap (<[s := st]> (heap w)) w).
Proof. done. Qed.

Lemma bind_log {B} ev (k : unit → M B) w :
  bind (log ev) k w = k tt (set_trace (trace w ++ [ev]) w).
Proof. done. Qed.

Lemma bind_destroy {B} h (k : unit → M B) w :
  h ∉ ended w →
  bind (destroy h) k w =
  k tt (set_ended ({[h]} ∪ ended w) (set_trace (trace w ++ [Destroyed h]) w)).
Proof. intros Hh. unfold bind, destroy. by rewrite decide_False. Qed.

Lemma bind_destroy_gone {B} h (k : unit → M B) w :
  h ∈ ended w → bind (destroy h) k w = Crashes.
Proof. intros Hh. unfold bind, destroy. by rewrite decide_True. Qed.

Lemma bind_Post {B} e cb arg (k : unit → M B) w :
  bind (Post e cb arg) k w =
  k tt (set_posted (posted w ++ [(e, (cb, arg))]) w).
Proof. done. Qed.

Lemma bind_must {A B} (a : A) (k : A → M B) w :
  bind (must (Some a)) k w = k a w.
Proof. done. Qed.


Lemma bind_store_ctx {B} c x (k : unit → M B) w :
  bind (store_ctx c x) k w = k tt (set_ctxs (<[c := x]> (ctxs w)) w).
Proof. done. Qed.

Lemma bind_assoc {A B C} (m : M A) (f : A → M B) (g : B → M C) w :
  bind (bind m f) g w = bind m (λ a, bind (f a) g) w.
Proof. unfold bind. by destruct (m w). Qed.

Ltac mrun :=
  repeat (first
    [ rewrite bind_assoc | rewrite bind_ret | rewrite bind_lock
    | rewrite bind_store | rewrite bind_log | rewrite bind_Post
    | rewrite bind_must | rewrite bind_store_ctx ]; cbv beta match).

(** Settling a state that is still [kInit] and has a continuation: the
    result goes to the executor's queue, or to the continuation at once. *)
Lemma settle_with_callback invoke p st status' r cb w :
  heap w !! p = Some st → status_ st = kInit → cb_ st = Some cb →
  is_pre status' = true →
  let st' :=
    set_status (if decide (status' = kPreResolved) then kResolved else kRejected)
      (set_storage None (set_cb None
        (set_storage (Some r) (set_status status' st)))) in
  let w' := set_heap (<[p := st']> (heap w)) w in
  settle invoke p status' r w =
  match exec_ st with
  | Some e => Returns true (set_posted (posted w ++ [(e, (cb, r))]) w')
  | None => (invoke cb r >> ret true) w'
  end.
Proof.
  intros Hp Hst Hcb Hpre st' w'. unfold settle.
  rewrite (bind_load _ st) by done. rewrite decide_False by congruence.
  mrun. unfold TryInvokeCallback. mrun.
  erewrite bind_load by apply lookup_insert_eq.
  cbn [cb_ set_storage set_status status_ storage_ exec_]. rewrite Hcb, Hpre.
  cbn [negb]. mrun. cbn [heap set_heap]. rewrite insert_insert_eq.
  unfold RunInExecutor. destruct (exec_ st); [by mrun|done].
Qed.

(** Settling a state nobody has attached a continuation to. *)
Lemma settle_no_callback invoke p so status' r w :
  heap w !! p = Some so → cb_ so = None →
  settle invoke p status' r w =
  if decide (status_ so = kInit)
  then Returns true
         (set_heap (<[p := set_storage (Some r) (set_status status' so)]>
                      (heap w)) w)
  else Returns false w.
Proof.
  intros Hp Hcb. unfold settle. rewrite (bind_load _ so) by done.
  destruct (decide (status_ so = kInit)) as [Hst|Hst].
  - rewrite decide_False by congruence. mrun. unfold TryInvokeCallback.
    erewrite bind_assoc, bind_load by apply lookup_insert_eq.
    cbn [cb_ set_storage set_status]. by rewrite Hcb.
  - by rewrite decide_True.
Qed.

(** * The claims *)

Lemma settle_true_iff_Init fuel w s st status' r :
  heap w !! s = Some st →
  rank_sum (heap w) ≤ fuel →
  is_pre status' = true →
  true_iff_Init (settle (InvokeVariantCallback fuel) s status' r) w st.
Proof.
  intros Hs Hr Hpre.
  assert (Hstep : status_step kInit status')
    by (destruct status'; try discriminate; constructor).
  pose proof (InvokeVariantCallback_good fuel) as Hg.
  unfold true_iff_Init, wp, settle, bind, load. rewrite Hs.
  split; [|split].
  - intros Hst. by rewrite decide_True.
  - intros Hst. rewrite decide_False by congruence. unfold store.
    set (w1 := set_heap _ w).
    assert (Hf1 : future 0 w w1).
    { eapply store_future; try done; simpl; [|auto].
      rewrite Hst. by apply rtc_once. }
    pose proof (TryInvokeCallback_sound fuel _ Hg s w1) as Ht.
    unfold wp in Ht.
    destruct (TryInvokeCallback _ s w1) as [[] w2| |]; try done.
    apply Ht. destruct Hf1 as (_ & ? & _). lia.
  - intros Hst Hcb. rewrite decide_False by congruence. unfold store.
    unfold TryInvokeCallback, bind, load. simpl.
    rewrite lookup_insert_eq. simpl.
    destruct (cb_ st) as [cb|] eqn:Hc; [|by eexists].
    destruct Hcb as [|[e He]]; [done|].
    rewrite Hpre. simpl. rewrite He. simpl. by eexists.
Qed.

(** C2. [Resolve] and [Reject] of a promise state, of either
    specialisation, called directly or through a resolver on a live state,
    return [true] if and only if the status was [kInit] at the call; from any
    other status they return [false] and leave the world, hence the state's
    status, storage and callback, as it was. *)
Theorem Resolve_Reject_true_iff_Init fuel w s st v e :
  heap w !! s = Some st →
  rank_sum (heap w) ≤ fuel →
  let invoke := InvokeVariantCallback fuel in
  true_iff_Init (Resolve invoke s v) w st ∧
  true_iff_Init (Reject invoke s e) w st ∧
  true_iff_Init (Resolve_void invoke s) w st ∧
  true_iff_Init (Reject_void invoke s e) w st ∧
  true_iff_Init (Resolver_Resolve invoke s v) w st ∧
  true_iff_Init (Resolver_Reject invoke s e) w st ∧
  true_iff_Init (Resolver_Resolve_void invoke s) w st ∧
  true_iff_Init (Resolver_Reject_void invoke s e) w st.
Proof.
  intros Hs Hr invoke.
  assert (Hres : ∀ m : M bool, true_iff_Init m w st →
            true_iff_Init
              (let! o := lock s in
               match o with Some _ => m | None => ret false end) w st).
  { intros m Hm. unfold true_iff_Init, wp, bind, lock. by rewrite Hs. }
  repeat split; try apply Hres; by apply settle_true_iff_Init.
Qed.

(** [Cancel] on a cancellable state whose coroutine, if any, is suspended:
    the state is cancelled and cleared, the coroutine destroyed, and the call
    goes on to the downstream. *)
Lemma Cancel_here fuel s st w :
  heap w !! s = Some st → cancellable (status_ st) = true →
  frame_live w st →
  Cancel (S fuel) s w =
  match next_ st with
  | Some n => Cancel fuel n (cancelled_here s st w)
  | None => Returns true (cancelled_here s st w)
  end.
Proof.
  intros Hs Hc Hl. cbn [Cancel].
  unfold Cancel_body, OnCancel, cancelled_here, destroyed.
  rewrite (bind_load _ st) by done. rewrite Hc. mrun.
  destruct (co_handle_ st) as [h|] eqn:Hh.
  - rewrite bind_destroy by (by apply Hl).
    erewrite bind_load by apply lookup_insert_eq. mrun.
    cbn [next_ set_status heap set_heap set_trace set_ended].
    rewrite insert_insert_eq. by destruct (next_ st).
  - mrun. erewrite bind_load by apply lookup_insert_eq. mrun.
    cbn [next_ set_status heap set_heap].
    rewrite insert_insert_eq. by destruct (next_ st).
Qed.

(** [Cancel] on a cancellable state whose coroutine has run to its end:
    [co_handle_.destroy()] is called on a frame that is gone. *)
Lemma Cancel_dangling fuel s st h w :
  heap w !! s = Some st → cancellable (status_ st) = true →
  co_handle_ st = Some h → h ∈ ended w →
  Cancel (S fuel) s w = Crashes.
Proof.
  intros Hs Hc Hh Hgone. cbn [Cancel]. unfold Cancel_body.
  rewrite (bind_load _ st) by done. rewrite Hc, Hh. mrun.
  by rewrite bind_destroy_gone.
Qed.

Lemma heap_destroyed st w : heap (destroyed st w) = heap w.
Proof. unfold destroyed. by destruct (co_handle_ st). Qed.

Lemma heap_cancelled_here s st w :
  heap (cancelled_here s st w) = <[s := cancel_state st]> (heap w).
Proof. done. Qed.

Lemma posted_cancelled_here s st w : posted (cancelled_here s st w) = posted w.
Proof. unfold cancelled_here, destroyed. by destruct (co_handle_ st). Qed.



Lemma Cancel_not_cancellable fuel s st w :
  heap w !! s = Some st → cancellable (status_ st) = false →
  Cancel (S fuel) s w = Returns false w.
Proof.
  intros Hs Hc. cbn [Cancel]. unfold Cancel_body.
  rewrite (bind_load _ st) by done. by rewrite Hc.
Qed.

(** C10. [Cancel] on a cancellable state [S] whose coroutine, if it is the
    promise of one, is still suspended: [S] is moved to [kCancelled], its
    callback and storage are cleared, and what the call returns is what
    [Cancel] on the downstream returns, from the world so changed; so with a
    downstream whose status is already terminal it returns [false] (and
    the downstream is left as it was), and with no downstream it returns
    [true].  On the promise of a coroutine that has run to its end the call
    does not return: it destroys a frame that is gone. *)
Theorem Cancel_reports_downstream fuel w s st :
  heap w !! s = Some st →
  cancellable (status_ st) = true →
  let w1 := cancelled_here s st w in
  (frame_live w st →
     heap w1 !! s = Some (cancel_state st) ∧
     (∀ n, next_ st = Some n → Cancel (S fuel) s w = Cancel fuel n w1) ∧
     (∀ n nt, next_ st = Some n → heap w !! n = Some nt →
        cancellable (status_ nt) = false →
        Cancel (S (S fuel)) s w = Returns false w1 ∧
        heap w1 !! n = Some nt) ∧
     (next_ st = None → Cancel (S fuel) s w = Returns true w1)) ∧
  (∀ h, co_handle_ st = Some h → h ∈ ended w →
     Cancel (S fuel) s w = Crashes).
Proof.
  intros Hs Hc w1. split; [|intros h; by apply Cancel_dangling].
  intros Hl. split; [apply lookup_insert_eq|]. split; [|split].
  - intros n Hn. by rewrite (Cancel_here fuel s st w), Hn.
  - intros n nt Hn Hnt Hcn.
    assert (n ≠ s) by (intros ->; congruence).
    assert (Hnt1 : heap w1 !! n = Some nt).
    { unfold w1, cancelled_here, destroyed. destruct (co_handle_ st);
        cbn [heap set_heap set_ended set_trace];
        by rewrite lookup_insert_ne. }
    split; [|done].
    rewrite (Cancel_here (S fuel) s st w), Hn by done.
    by apply (Cancel_not_cancellable _ _ nt).
  - intros Hn. by rewrite (Cancel_here fuel s st w), Hn.
Qed.

Lemma is_pre_bool_decide s :
  is_pre s = bool_decide (s = kPreResolved ∨ s = kPreRejected).
Proof.
  by destruct s.
Qed.

Lemma IsPending_is_pre w p st :
  heap w !! p = Some st → IsPending p w = Returns (is_pre (status_ st)) w.
Proof.
  intros Hp. unfold IsPending, GetStatus, bind, load. rewrite Hp. simpl.
  unfold ret. f_equal. by destruct (status_ st).
Qed.

(** C8. [IsPending()] is [true] exactly when the status is [kPreResolved]
    or [kPreRejected], [await_ready()] is [IsPending()] of the awaited
    promise, and a coroutine that awaits a promise settled but not yet
    delivered does not suspend: it goes on with the stored result. *)
Theorem IsPending_await_ready w p st :
  heap w !! p = Some st →
  let pending :=
    bool_decide (status_ st = kPreResolved ∨ status_ st = kPreRejected) in
  IsPending p w = Returns pending w ∧
  (∀ awaiter a, awaiters w !! awaiter = Some a → promise_ a = p →
     await_ready awaiter w = Returns pending w) ∧
  (∀ fuel void_v h current r, pending = true → storage_ st = Some r →
     ∃ w', co_await (InvokeVariantCallback (S fuel)) void_v p h current w
           = Returns (Continues r) w').
Proof.
  intros Hp pending. unfold pending. rewrite <- is_pre_bool_decide.
  split; [by apply IsPending_is_pre|]. split.
  - intros awaiter a Ha <-. unfold await_ready, bind, load_awaiter.
    rewrite Ha. by apply IsPending_is_pre.
  - intros fuel void_v h current r Hpre Hst.
    unfold co_await, operator_co_await, await_ready, bind, load_awaiter.
    simpl. rewrite lookup_insert_eq. simpl.
    rewrite (IsPending_is_pre _ p st) by done. rewrite Hpre.
    unfold await_resume, bind, load_awaiter. simpl.
    rewrite lookup_insert_eq. simpl.
    rewrite (IsPending_is_pre _ p st) by done. rewrite Hpre.
    unfold Then, Attach, AddCallback, TryInvokeCallback, bind, load, store.
    simpl. rewrite Hp. simpl. rewrite lookup_insert_eq. simpl.
    rewrite Hpre, Hst. simpl.
    unfold bind, log, lock, await_resume_callback, load_awaiter,
      store_awaiter, bind. simpl.
    repeat (rewrite lookup_insert_eq; simpl).
    by eexists.
Qed.

(** C9. [IsValue()] of a [Result<void, E>] is [false] whatever the result
    holds, so [return_value(Result<void, E>&&)] of the [Promise<void, E>]
    adapter is a plain [Resolve()]: it resolves the outer promise and never
    rejects it, also when the result carries an error. *)
Theorem return_value_void_always_resolves :
  (∀ r : ResultVoid, IsValue_void r = false) ∧
  (∀ invoke promise r,
     return_value_void_Result invoke promise r =
     (Resolver_Resolve_void invoke promise >> ret tt)) ∧
  (∀ fuel w promise st e,
     heap w !! promise = Some st → status_ st = kInit → cb_ st = None →
     return_value_void_Result (InvokeVariantCallback fuel) promise
       (mkResultVoid (Some e)) w =
     Returns tt
       (set_heap (<[promise := set_storage (Some (OfVoid (mkResultVoid None)))
                                 (set_status kPreResolved st)]> (heap w)) w)).
Proof.
  split; [done|]. split; [done|].
  intros fuel w promise st e Hp Hst Hcb.
  unfold return_value_void_Result. simpl.
  unfold Resolver_Resolve_void, Resolve_void, settle.
  mrun. rewrite Hp. mrun. rewrite (bind_load _ st) by done.
  rewrite decide_False by congruence. mrun.
  unfold TryInvokeCallback. mrun.
  erewrite bind_load by apply lookup_insert_eq.
  simpl. by rewrite Hcb.
Qed.

(** C1 (what the code does instead). [PropagateResult] tests the pointer
    it is given, never the [Result] behind it, so it always takes the
    resolving branch and reads [Value()].  In a chain [A → B] built by [Then]
    with a continuation [f] that returns a [Result], settling [A] with
    nothing to post to calls [f]; when [f] returns a value [B] is resolved
    with it, when [f] returns an error the read of the absent value aborts
    the run and [B] is not rejected. *)
Theorem PropagateResult_ignores_variant fuel w A B stA stB f v :
  heap w !! A = Some stA → heap w !! B = Some stB → A ≠ B →
  status_ stA = kInit → cb_ stA = Some (CbResult A f) → exec_ stA = None →
  next_ stA = Some B →
  status_ stB = kInit → cb_ stB = None →
  let invoke := InvokeVariantCallback (S fuel) in
  (∀ r, PropagateResult invoke B (Some r) =
        match r with
        | kValue u => Resolve invoke B u >> ret tt
        | _ => crash
        end) ∧
  (∀ u, f (kValue v) = kValue u →
     ∃ w', Resolve invoke A v w = Returns true w' ∧ resolved_with w' B u) ∧
  (∀ e, f (kValue v) = kError e → Resolve invoke A v w = Crashes).
Proof.
  intros HA HB Hne HstA HcbA HexA Hnext HstB HcbB invoke.
  split; [by intros []|].
  assert (Hrun : Resolve invoke A v w =
            (PropagateResult (InvokeVariantCallback fuel) B
               (Some (f (kValue v))) >> ret true)
              (set_trace (trace w ++ [Invoked (CbResult A f) (OfT (kValue v))])
                 (set_heap (<[A := set_status kResolved
                             (set_storage None (set_cb None
                               (set_storage (Some (OfT (kValue v)))
                                 (set_status kPreResolved stA))))]> (heap w))
                    w))).
  { unfold Resolve.
    rewrite (settle_with_callback invoke A stA kPreResolved _ _ w HA HstA
               HcbA eq_refl).
    rewrite HexA. cbv zeta. rewrite decide_True by done.
    unfold invoke. cbn [InvokeVariantCallback]. mrun.
    unfold call_callback. mrun. cbn [heap set_heap set_trace].
    rewrite lookup_insert_eq. cbn [next_ set_status set_storage set_cb].
    rewrite Hnext. cbn [as_result]. by mrun. }
  rewrite Hrun. split.
  - intros u ->. unfold PropagateResult. cbn [Value]. mrun.
    unfold Resolve, bind.
    erewrite settle_no_callback;
      [|by cbn [heap set_heap set_trace]; rewrite lookup_insert_ne|done].
    rewrite decide_True by done. eexists. split; [done|].
    eexists. cbn [heap set_heap]. by rewrite lookup_insert_eq.
  - intros e ->. unfold PropagateResult. by cbn [Value].
Qed.

Lemma status_path_cases a b :
  rtc status_step a b ↔
  a = b ∨ a = kInit ∨
  (a = kPreResolved ∧ (b = kResolved ∨ b = kCancelled)) ∨
  (a = kPreRejected ∧ (b = kRejected ∨ b = kCancelled)).
Proof.
  split.
  - induction 1 as [|x y z Hxy _ IH]; [by left|].
    destruct Hxy as [| | | |[]]; simpl in *; try discriminate;
      destruct IH as [<-|[?|[[? ?]|[? ?]]]]; try discriminate; auto 10.
  - intros [->|[->|[[-> [->| ->]]|[-> [->| ->]]]]]; try done;
      try (apply rtc_once; by constructor).
    destruct b; try done;
      first [ apply rtc_once; by constructor
            | eapply rtc_l; [|apply rtc_once]; by constructor ].
Qed.

(** C3. Over every sequence of operations (settling through a resolver,
    cancelling, attaching a continuation with any of the three [Then]s,
    creating a promise, delivering a posted closure) the status of every
    state only moves along [kInit → kPreResolved → kResolved] or
    [kInit → kPreRejected → kRejected], or to [kCancelled] from [kInit],
    [kPreResolved] or [kPreRejected]; the run does not run out of fuel. *)
Theorem status_moves_along_paths ops m w :
  rank_sum (heap w) + 2 * length ops ≤ m →
  wp (run_ops (S (m + 2)) ops) w (λ _ w',
    (∀ s st, heap w !! s = Some st →
       ∃ st', heap w' !! s = Some st' ∧
              rtc status_step (status_ st) (status_ st')) ∧
    (∀ s st', heap w !! s = None → heap w' !! s = Some st' →
       rtc status_step kInit (status_ st'))) ∧
  (∀ a b, rtc status_step a b ↔
     a = b ∨ a = kInit ∨
     (a = kPreResolved ∧ (b = kResolved ∨ b = kCancelled)) ∨
     (a = kPreRejected ∧ (b = kRejected ∨ b = kCancelled))).
Proof.
  intros Hr. split; [|apply status_path_cases].
  eapply wp_mono; [by apply run_ops_sound|].
  intros [] w' (Hadv & _). exact Hadv.
Qed.

Lemma wf_empty_world : wf empty_world.
Proof.
  split; [intros s st cb Hs; simpl in Hs; by rewrite lookup_empty in Hs|].
  split; [intros e cb v Hin; by apply elem_of_nil in Hin|].
  split; [intros s st h Hs; simpl in Hs; by rewrite lookup_empty in Hs|].
  intros s s' st st' h Hs. simpl in Hs. by rewrite lookup_empty in Hs.
Qed.



(** ** Aggregate combinators: the protocol shared by [MkAllPromise] and
    [MkAnyPromise] *)

Lemma invoke_CbVoid fuel p f r w :
  is_Some (heap w !! p) →
  InvokeVariantCallback (S fuel) (CbVoid p f) r w =
  call_user (InvokeVariantCallback fuel) f r
    (set_trace (trace w ++ [Invoked (CbVoid p f) r]) w).
Proof.
  intros [st Hs]. simpl. mrun. simpl. by rewrite Hs.
Qed.

(** Cancelling a cancellable state that has no downstream and is not the
    promise of a coroutine. *)
Lemma Cancel_no_downstream fuel p st w :
  heap w !! p = Some st → cancellable (status_ st) = true →
  next_ st = None → co_handle_ st = None →
  Cancel (S fuel) p w =
  Returns true (set_heap (<[p := cancel_state st]> (heap w)) w).
Proof.
  intros Hp Hc Hn Hh.
  rewrite (Cancel_here fuel p st w), Hn by (done || by intros h; rewrite Hh).
  unfold cancelled_here, destroyed. by rewrite Hh.
Qed.



Section Aggregate.
Variables (its : list addr) (exec : option Executor) (ctx out : addr).
Variable mk : nat → UserFn.
Variable Agg : list (nat * Result) → Ctx → PromiseState → Prop.
Hypothesis Hnodup : NoDup its.
Hypothesis Hout : out ∉ its.
Hypothesis Hdeliver : ∀ invoke D c so w i r,
  i < length its → i ∉ D.*1 → NoDup D.*1 →
  (∀ j, j ∈ D.*1 → j < length its) → r ≠ kNull →
  ctxs w !! ctx = Some c → heap w !! out = Some so → Agg D c so →
  ∃ c' so',
    call_user invoke (mk i) (OfT r) w =
      Returns tt (set_ctxs (<[ctx := c']> (ctxs w))
                    (set_heap (<[out := so']> (heap w)) w)) ∧
    Agg (D ++ [(i, r)]) c' so'.






















End Aggregate.

(** ** Positions, counting and filling *)







Section Picked.
Context {A : Type} (pick : Result → option A).








End Picked.

(** ** [MkAllPromise] *)








Lemma run_inputs_app fuel its ops1 ops2 w :
  run_inputs fuel its (ops1 ++ ops2) w =
  (run_inputs fuel its ops1 >> run_inputs fuel its ops2) w.
Proof.
  revert w. induction ops1 as [|op ops1 IH]; intros w; [done|].
  simpl. rewrite bind_assoc. unfold bind at 1 2.
  destruct (run_input fuel its op w); [apply IH|done..].
Qed.













(** ** [MkAnyPromise] *)







End Model.

Arguments Returns {T E A} a w.
Arguments Crashes {T E A}.
Arguments OutOfFuel {T E A}.

(** * The claims on concrete promises

    Values and errors are natural numbers.  The worlds are the ones a client
    builds with the operations of the library. *)

(** [auto B = A.Then(f); B.Then(g);] *)
Definition chain_ops : list (@Op nat nat) :=
  [OpNew None; OpThenResult 0 (λ r, r) None; OpThen 1 (FnOpaque 0) None].

(** The same chain, and then [B.GetResolver().Resolve(5)]: the continuation
    of [B] is called inline and [B] is [kResolved]. *)
Definition settled_ops : list (@Op nat nat) :=
  chain_ops ++ [OpResolve 1 (Base 5)].

Definition world_of (ops : list (@Op nat nat)) : @World nat nat :=
  match run_ops 12 ops empty_world with
  | Returns _ w => w
  | _ => empty_world
  end.

Definition pending_chain : @World nat nat := world_of chain_ops.
Definition settled_downstream : @World nat nat := world_of settled_ops.

Definition head_state : @PromiseState nat nat :=
  mkState kInit None (Some 1) None None None (Some (CbResult 0 (λ r, r))).
Definition settled_tail : @PromiseState nat nat :=
  mkState kResolved None None (Some 0) None None None.

(** A promise that was resolved with [5] and has no continuation yet. *)
Definition undelivered : @PromiseState nat nat :=
  mkState kPreResolved None None None None (Some (OfT (kValue (Base 5)))) None.
Definition undelivered_world : @World nat nat :=
  mkWorld {[0 := undelivered]} ∅ ∅ [] [] ∅.

(** Two promises, just created, to hand to a combinator. *)
Definition two_inputs : @World nat nat :=
  mkWorld {[0 := new_state None; 1 := new_state None]} ∅ ∅ [] [] ∅.

(** The promise [0] is the promise of the coroutine [9], which has run
    [co_return 5;] and is gone; nobody has attached to the promise. *)
Definition returned_coroutine : @World nat nat :=
  match bind (AttachCoroutineHandle 0 9)
          (λ _, co_return (InvokeVariantCallback 2) 0 9 (Base 5))
          two_inputs with
  | Returns _ w => w
  | _ => empty_world
  end.

Definition returned_state : @PromiseState nat nat :=
  mkState kPreResolved None None None (Some 9)
    (Some (OfT (kValue (Base 5)))) None.

(** A continuation that fails on [0] and passes everything else on. *)
Definition fail_on_zero (r : @Result nat nat) : @Result nat nat :=
  match r with
  | kValue (Base 0) => kError (BaseE 9)
  | _ => r
  end.

(** [auto B = A.Then(fail_on_zero);] *)
Definition result_chain : @World nat nat :=
  world_of [OpNew None; OpThenResult 0 fail_on_zero None].

Definition result_head : @PromiseState nat nat :=
  mkState kInit None (Some 1) None None None (Some (CbResult 0 fail_on_zero)).
Definition result_tail : @PromiseState nat nat :=
  mkState kInit None None (Some 0) None None None.








(** ** The claims at these worlds *)

(** C1 on a chain whose continuation fails on [0]: resolving the head with
    [5] resolves the downstream with [5]; resolving it with [0] aborts, and
    the downstream is never rejected. *)
Lemma PropagateResult_ignores_variant_witness :
  heap result_chain !! 0 = Some result_head ∧
  heap result_chain !! 1 = Some result_tail ∧
  (∃ w', Resolve (InvokeVariantCallback 3) 0 (Base 5) result_chain
         = Returns true w' ∧ resolved_with w' 1 (Base 5)) ∧
  Resolve (InvokeVariantCallback 3) 0 (Base 0) result_chain = Crashes.
Proof.
  assert (HA : heap result_chain !! 0 = Some result_head) by (by vm_compute).
  assert (HB : heap result_chain !! 1 = Some result_tail) by (by vm_compute).
  split; [exact HA|]. split; [exact HB|]. split.
  - destruct (PropagateResult_ignores_variant 2 result_chain 0 1 result_head
                result_tail fail_on_zero (Base 5) HA HB)
      as (_ & H & _); [done..|].
    by apply H.
  - destruct (PropagateResult_ignores_variant 2 result_chain 0 1 result_head
                result_tail fail_on_zero (Base 0) HA HB)
      as (_ & _ & H); [done..|].
    by apply (H (BaseE 9)).
Defined.

(** C2 on a promise just created ([Resolve] returns [true]) and on one
    already resolved ([Reject] returns [false] and changes nothing). *)
Lemma Resolve_Reject_true_iff_Init_witness :
  heap two_inputs !! 0 = Some (new_state None) ∧
  rank_sum (heap two_inputs) ≤ 4 ∧
  (∃ w', Resolve (InvokeVariantCallback 4) 0 (Base 7) two_inputs
         = Returns true w') ∧
  Reject (InvokeVariantCallback 4) 0 (BaseE 3) undelivered_world
    = Returns false undelivered_world.
Proof.
  assert (Hr : rank_sum (heap two_inputs) ≤ 4) by (vm_compute; lia).
  assert (Hu : rank_sum (heap undelivered_world) ≤ 4) by (vm_compute; lia).
  split; [done|]. split; [exact Hr|]. split.
  - destruct (Resolve_Reject_true_iff_Init 4 two_inputs 0 (new_state None)
                (Base 7) (BaseE 3) eq_refl Hr) as [(_ & _ & H) _].
    apply H; [done|by left].
  - destruct (Resolve_Reject_true_iff_Init 4 undelivered_world 0 undelivered
                (Base 7) (BaseE 3) eq_refl Hu) as (_ & [H _] & _).
    by apply H.
Defined.

(** C10 on the head of a chain whose downstream was resolved through its own
    resolver, on a promise with no downstream, and on the promise of a
    coroutine that has returned. *)
Lemma Cancel_reports_downstream_witness :
  heap settled_downstream !! 0 = Some head_state ∧
  cancellable (status_ head_state) = true ∧
  frame_live settled_downstream head_state ∧
  (Cancel 3 0 settled_downstream =
     Returns false (cancelled_here 0 head_state settled_downstream) ∧
   heap (cancelled_here 0 head_state settled_downstream) !! 0 =
     Some (cancel_state head_state) ∧
   heap (cancelled_here 0 head_state settled_downstream) !! 1 =
     Some settled_tail) ∧
  Cancel 2 0 undelivered_world =
    Returns true (cancelled_here 0 undelivered undelivered_world) ∧
  heap returned_coroutine !! 0 = Some returned_state ∧
  Cancel 2 0 returned_coroutine = Crashes.
Proof.
  assert (Hs : heap settled_downstream !! 0 = Some head_state)
    by (by vm_compute).
  assert (Hr : heap returned_coroutine !! 0 = Some returned_state)
    by (by vm_compute).
  split; [exact Hs|]. split; [done|]. split; [done|]. split; [|split].
  - destruct (Cancel_reports_downstream 1 settled_downstream 0 head_state
                Hs eq_refl) as [H _].
    destruct H as (H0 & _ & H1 & _); [done|].
    destruct (H1 1 settled_tail) as [Hc Hn]; [done|by vm_compute|done|].
    done.
  - destruct (Cancel_reports_downstream 1 undelivered_world 0 undelivered
                eq_refl eq_refl) as [H _].
    destruct H as (_ & _ & _ & H); [done|]. by apply H.
  - split; [exact Hr|].
    destruct (Cancel_reports_downstream 1 returned_coroutine 0 returned_state
                Hr eq_refl) as [_ H].
    apply (H 9); [done|by vm_compute].
Defined.

(** C8 on a promise resolved with [5] and not yet delivered, and on a
    promise just created. *)
Lemma IsPending_await_ready_witness :
  heap undelivered_world !! 0 = Some undelivered ∧
  IsPending 0 undelivered_world = Returns true undelivered_world ∧
  IsPending 0 two_inputs = Returns false two_inputs ∧
  ∃ w', co_await (InvokeVariantCallback 1) false 0 0 None undelivered_world
        = Returns (Continues (OfT (kValue (Base 5)))) w'.
Proof.
  split; [done|].
  destruct (IsPending_await_ready undelivered_world 0 undelivered eq_refl)
    as (Hp & _ & Hco).
  destruct (IsPending_await_ready two_inputs 0 (new_state None) eq_refl)
    as (Hn & _).
  split; [exact Hp|]. split; [exact Hn|].
  by apply Hco.
Defined.

(** C3 on the chain whose downstream is resolved through its own
    resolver. *)
Lemma status_moves_along_paths_witness :
  rank_sum (heap (@empty_world nat nat)) + 2 * length settled_ops ≤ 8 ∧
  wp (run_ops 11 settled_ops) empty_world (λ _ w',
    ∀ s st', heap w' !! s = Some st' → rtc status_step kInit (status_ st')).
Proof.
  assert (Hm : rank_sum (heap (@empty_world nat nat))
               + 2 * length settled_ops ≤ 8) by (vm_compute; lia).
  split; [exact Hm|].
  destruct (status_moves_along_paths settled_ops 8 empty_world Hm)
    as [Hwp _].
  eapply wp_mono; [exact Hwp|].
  intros ? w' [_ H] s st'. by apply H.
Defined.









(** * Further properties of the code

    How attaching, settling and cancelling compose, what a chain of [Then]s
    computes, [MkRacePromise], and the rest of the coroutine adapter. *)

Section Further.
Context {T E : Type}.

Local Abbreviation World := (@World T E).
Local Abbreviation PromiseState := (@PromiseState T E).
Local Abbreviation Result := (@Result T E).
Local Abbreviation AnyResult := (@AnyResult T E).
Local Abbreviation Val := (@Val T).
Local Abbreviation Callback := (@Callback T E).
Local Abbreviation M := (@M T E).
Local Abbreviation PromiseAwaiter := (@PromiseAwaiter T E).

Local Notation "'let!' x := m 'in' k" := (bind m (λ x, k))
  (at level 10, x pattern, m at level 100, k at level 200).
Local Notation "m >> k" := (bind m (λ _, k))
  (at level 65, right associativity).

Ltac mrun :=
  repeat (first
    [ rewrite bind_assoc | rewrite bind_ret | rewrite bind_lock
    | rewrite bind_store | rewrite bind_log | rewrite bind_Post
    | rewrite bind_must | rewrite bind_store_ctx ]; cbv beta match).

Ltac look :=
  cbn [heap set_heap set_trace trace set_ended];
  repeat first [rewrite lookup_insert_eq | rewrite lookup_insert_ne by done].


(** ** Attaching and settling in either order *)

(** The state [st] once a result has been delivered from it through a
    continuation attached with [exec]. *)
Definition delivered_state (status' : PromiseStatus) (exec : option Executor)
    (st : PromiseState) : PromiseState :=
  mkState (if decide (status' = kPreResolved) then kResolved else kRejected)
    exec (next_ st) (prev_ st) (co_handle_ st) None None.

Lemma settle_after_attach invoke p (st : PromiseState) cb exec status' r w :
  heap w !! p = Some st → status_ st = kInit → is_pre status' = true →
  (AddCallback invoke p cb exec >> settle invoke p status' r) w =
  (RunInExecutor invoke exec cb r >> ret true)
    (set_heap (<[p := delivered_state status' exec st]> (heap w)) w).
Proof.
  intros Hp Hst Hpre. unfold AddCallback. mrun.
  rewrite (bind_load _ st) by done. mrun.
  unfold TryInvokeCallback at 1. mrun.
  erewrite bind_load by apply lookup_insert_eq.
  cbn [cb_ set_cb set_exec status_]. rewrite Hst. cbn [is_pre negb]. mrun.
  erewrite settle_with_callback;
    [|apply lookup_insert_eq|done|done|done].
  cbn [exec_ set_cb set_exec heap set_heap posted set_posted].
  rewrite insert_insert_eq. unfold RunInExecutor.
  destruct exec; by mrun.
Qed.

Lemma attach_after_settle invoke p (st : PromiseState) cb exec status' r w :
  heap w !! p = Some st → status_ st = kInit → cb_ st = None →
  is_pre status' = true →
  (let! b := settle invoke p status' r in
   AddCallback invoke p cb exec >> ret b) w =
  (RunInExecutor invoke exec cb r >> ret true)
    (set_heap (<[p := delivered_state status' exec st]> (heap w)) w).
Proof.
  intros Hp Hst Hcb Hpre. unfold bind at 1.
  rewrite (settle_no_callback invoke p st status' r w Hp Hcb).
  rewrite decide_True by done. unfold AddCallback. mrun.
  erewrite bind_load by apply lookup_insert_eq. mrun.
  unfold TryInvokeCallback. mrun.
  erewrite bind_load by apply lookup_insert_eq.
  cbn [cb_ set_cb set_exec status_ set_storage set_status storage_].
  rewrite Hpre. cbn [negb]. mrun.
  cbn [exec_ set_cb set_exec heap set_heap].
  rewrite !insert_insert_eq.
  unfold delivered_state. by destruct exec.
Qed.

(** X1. On a promise that is still [kInit] and has no continuation,
    attaching a continuation and then settling does what settling and then
    attaching does: the same world, the same single delivery of the result
    to that continuation (inline, or posted to [exec]). *)
Theorem Then_commutes_with_settling fuel p (st : PromiseState) f exec v e w :
  heap w !! p = Some st → status_ st = kInit → cb_ st = None →
  let invoke := InvokeVariantCallback fuel in
  (Then invoke p f exec >> Resolve invoke p v) w =
    (let! b := Resolve invoke p v in Then invoke p f exec >> ret b) w ∧
  (Then invoke p f exec >> Reject invoke p e) w =
    (let! b := Reject invoke p e in Then invoke p f exec >> ret b) w ∧
  (Then invoke p f exec >> Resolve invoke p v) w =
    (RunInExecutor invoke exec (CbVoid p f) (OfT (kValue v)) >> ret true)
      (set_heap (<[p := delivered_state kPreResolved exec st]> (heap w)) w).
Proof.
  intros Hp Hst Hcb invoke. unfold Then, Attach, Resolve, Reject.
  rewrite !(settle_after_attach _ _ st), !(attach_after_settle _ _ st)
    by done.
  done.
Qed.

(** X2. [AddCallback] overwrites: after two [Then]s on a promise that is
    still [kInit], settling delivers the result to the second continuation
    only, through the executor of the second [Then] (inline when it is
    null), whatever continuation and executor the state had before. *)
Theorem Then_replaces_continuation fuel p (st : PromiseState) f g exec exec'
    v w :
  heap w !! p = Some st → status_ st = kInit →
  let invoke := InvokeVariantCallback fuel in
  (Then invoke p f exec >> Then invoke p g exec' >> Resolve invoke p v) w =
  (RunInExecutor invoke exec' (CbVoid p g) (OfT (kValue v)) >> ret true)
    (set_heap (<[p := delivered_state kPreResolved exec' st]> (heap w)) w).
Proof.
  intros Hp Hst invoke. unfold Then at 1, Attach, AddCallback at 1. mrun.
  rewrite (bind_load _ st) by done. mrun.
  unfold TryInvokeCallback at 1. mrun.
  erewrite bind_load by apply lookup_insert_eq.
  cbn [cb_ set_cb set_exec status_]. rewrite Hst. cbn [is_pre negb]. mrun.
  unfold Then, Attach, Resolve.
  erewrite settle_after_attach; [|apply lookup_insert_eq|done|done].
  cbn [heap set_heap]. by rewrite insert_insert_eq.
Qed.

(** ** Cancelling again, and cancelling a chain of any length *)

Lemma Cancel_returns_live fuel s (st : PromiseState) (w w1 : World) b :
  Cancel (S fuel) s w = Returns b w1 → heap w !! s = Some st →
  cancellable (status_ st) = true → frame_live w st.
Proof.
  intros Hrun Hs Hc h Hh Hin.
  by rewrite (Cancel_dangling fuel s st h w) in Hrun.
Qed.

Lemma Cancel_keeps_cancelled fuel s (w w1 : World) b :
  Cancel fuel s w = Returns b w1 →
  ∀ a st, heap w !! a = Some st → status_ st = kCancelled →
    ∃ st', heap w1 !! a = Some st' ∧ status_ st' = kCancelled.
Proof.
  revert s w w1 b. induction fuel as [|fuel IH]; intros s w w1 b; [done|].
  intros Hrun a st Ha Hst.
  destruct (heap w !! s) as [st0|] eqn:Hs;
    [|by cbn [Cancel] in Hrun; unfold Cancel_body, bind, load in Hrun;
        rewrite Hs in Hrun].
  destruct (cancellable (status_ st0)) eqn:Hc.
  - pose proof (Cancel_returns_live _ _ _ _ _ _ Hrun Hs Hc) as Hl.
    rewrite (Cancel_here fuel s st0 w Hs Hc Hl) in Hrun.
    assert (Hmid : ∃ st', heap (cancelled_here s st0 w) !! a = Some st'
                          ∧ status_ st' = kCancelled).
    { rewrite heap_cancelled_here. destruct (decide (a = s)) as [->|Hne].
      - rewrite lookup_insert_eq. by eexists.
      - rewrite lookup_insert_ne by done. by eexists. }
    destruct (next_ st0) as [n|].
    + destruct Hmid as (st' & Hst' & Hc').
      by apply (IH _ _ _ _ Hrun a st').
    + injection Hrun as <- <-. exact Hmid.
  - rewrite (Cancel_not_cancellable fuel s st0 w Hs Hc) in Hrun.
    injection Hrun as <- <-. eauto.
Qed.

(** X3. [Cancel] is idempotent: once a call of [Cancel] on a state has
    returned, whatever it returned, a second call returns [false] and
    changes nothing; so the coroutine handle of a state is destroyed by at
    most one of them. *)
Theorem Cancel_again_is_noop fuel fuel' s (w w1 : World) b :
  Cancel fuel s w = Returns b w1 →
  Cancel (S fuel') s w1 = Returns false w1.
Proof.
  intros Hrun.
  assert (Hnc : ∃ st1, heap w1 !! s = Some st1 ∧
                       cancellable (status_ st1) = false).
  { destruct fuel as [|fuel]; [done|].
    destruct (heap w !! s) as [st0|] eqn:Hs;
      [|by simpl in Hrun; unfold Cancel_body, bind, load in Hrun;
          rewrite Hs in Hrun].
    destruct (cancellable (status_ st0)) eqn:Hc.
    - cut (∃ st1, heap w1 !! s = Some st1 ∧ status_ st1 = kCancelled).
      { intros (st1 & ? & Hst1). exists st1. by rewrite Hst1. }
      pose proof (Cancel_returns_live _ _ _ _ _ _ Hrun Hs Hc) as Hl.
      rewrite (Cancel_here fuel s st0 w Hs Hc Hl) in Hrun.
      destruct (next_ st0) as [n|].
      + eapply (Cancel_keeps_cancelled _ _ _ _ _ Hrun s);
          [rewrite heap_cancelled_here; apply lookup_insert_eq|done].
      + injection Hrun as <- <-.
        rewrite heap_cancelled_here, lookup_insert_eq. by eexists.
    - rewrite (Cancel_not_cancellable fuel s st0 w Hs Hc) in Hrun.
      injection Hrun as <- <-. eauto. }
  destruct Hnc as (st1 & Hs1 & Hc1).
  simpl. unfold Cancel_body. rewrite (bind_load _ st1) by done.
  by rewrite Hc1.
Qed.






(** ** Chains of [Then] with continuations that return a [Result] *)

(** [p.Then(f1).Then(f2)...], nothing settled yet and no executor: the
    states [l] starting at [s], linked by [next_], each but the last one
    holding the lambda [Attach] built for its continuation; [t] is the last
    one. *)
Inductive pipeline (h : gmap addr PromiseState)
    : addr → list (Result → Result) → list addr → addr → Prop :=
  | pipe_end s st :
    h !! s = Some st → status_ st = kInit → cb_ st = None →
    pipeline h s [] [s] s
  | pipe_cons s st f n fs l t :
    h !! s = Some st → status_ st = kInit →
    cb_ st = Some (CbResult s f) → exec_ st = None → next_ st = Some n →
    s ∉ l → pipeline h n fs l t →
    pipeline h s (f :: fs) (s :: l) t.

(** The value that comes out of the continuations [fs] fed with [v], when
    each of them returns a value. *)
Fixpoint run_stages (fs : list (Result → Result)) (v : Val) : option Val :=
  match fs with
  | [] => Some v
  | f :: fs' =>
    match f (kValue v) with
    | kValue u => run_stages fs' u
    | _ => None
    end
  end.

Lemma Resolve_stage fuel s (st : PromiseState) f n v w :
  heap w !! s = Some st → status_ st = kInit →
  cb_ st = Some (CbResult s f) → exec_ st = None → next_ st = Some n →
  Resolve (InvokeVariantCallback (S fuel)) s v w =
  (PropagateResult (InvokeVariantCallback fuel) n (Some (f (kValue v))) >>
   ret true)
    (set_trace (trace w ++ [Invoked (CbResult s f) (OfT (kValue v))])
       (set_heap (<[s := set_status kResolved
                   (set_storage None (set_cb None
                     (set_storage (Some (OfT (kValue v)))
                       (set_status kPreResolved st))))]> (heap w)) w)).
Proof.
  intros Hs Hst Hcb Hex Hnext. unfold Resolve.
  rewrite (settle_with_callback _ s st kPreResolved _ _ w Hs Hst Hcb eq_refl).
  rewrite Hex. cbv zeta. rewrite decide_True by done.
  cbn [InvokeVariantCallback]. mrun.
  unfold call_callback. mrun. cbn [heap set_heap set_trace].
  rewrite lookup_insert_eq. cbn [next_ set_status set_storage set_cb].
  rewrite Hnext. cbn [as_result]. by mrun.
Qed.

Lemma Reject_stage fuel s (st : PromiseState) f n e w :
  heap w !! s = Some st → status_ st = kInit →
  cb_ st = Some (CbResult s f) → exec_ st = None → next_ st = Some n →
  Reject (InvokeVariantCallback (S fuel)) s e w =
  (PropagateResult (InvokeVariantCallback fuel) n (Some (f (kError e))) >>
   ret true)
    (set_trace (trace w ++ [Invoked (CbResult s f) (OfT (kError e))])
       (set_heap (<[s := set_status kRejected
                   (set_storage None (set_cb None
                     (set_storage (Some (OfT (kError e)))
                       (set_status kPreRejected st))))]> (heap w)) w)).
Proof.
  intros Hs Hst Hcb Hex Hnext. unfold Reject.
  rewrite (settle_with_callback _ s st kPreRejected _ _ w Hs Hst Hcb eq_refl).
  rewrite Hex. cbv zeta. rewrite decide_False by done.
  cbn [InvokeVariantCallback]. mrun.
  unfold call_callback. mrun. cbn [heap set_heap set_trace].
  rewrite lookup_insert_eq. cbn [next_ set_status set_storage set_cb].
  rewrite Hnext. cbn [as_result]. by mrun.
Qed.

Lemma pipeline_insert h s (st' : PromiseState) n fs l t :
  s ∉ l → pipeline h n fs l t → pipeline (<[s := st']> h) n fs l t.
Proof.
  intros Hnin Hpipe. induction Hpipe as
    [a sa Ha Hsa Hca|a sa f m fs l t Ha Hsa Hca Hea Hna Hal Hpipe IH].
  - apply (pipe_end _ a sa); [|done..].
    rewrite lookup_insert_ne; [done|]. intros ->.
    apply Hnin, list_elem_of_here.
  - apply (pipe_cons _ a sa f m); [|done..|].
    + rewrite lookup_insert_ne; [done|]. intros ->.
      apply Hnin, list_elem_of_here.
    + apply IH. intros Hin. by apply Hnin, list_elem_of_further.
Qed.

Lemma pipeline_snoc h s fs l t (st' sb : PromiseState) b f :
  pipeline h s fs l t → h !! b = None →
  status_ st' = kInit → cb_ st' = Some (CbResult t f) → exec_ st' = None →
  next_ st' = Some b → status_ sb = kInit → cb_ sb = None →
  pipeline (<[t := st']> (<[b := sb]> h)) s (fs ++ [f]) (l ++ [b]) b.
Proof.
  intros Hpipe Hb. induction Hpipe as
    [a sa Ha Hsa Hca|a sa g m fs l t Ha Hsa Hca Hea Hna Hal Hpipe IH];
    intros Hst' Hcb' Hex' Hn' Hsb Hcsb.
  - assert (Hba : b ≠ a) by (intros Heq; rewrite Heq in Hb; congruence).
    cbn [app]. apply (pipe_cons _ a st' f b); try done.
    + apply lookup_insert_eq.
    + by intros ?%list_elem_of_singleton.
    + apply (pipe_end _ b sb); [|done..].
      by rewrite lookup_insert_ne, lookup_insert_eq.
  - cbn [app].
    assert (Hab : a ≠ b) by (intros Heq; rewrite Heq in Ha; congruence).
    assert (Hat : a ≠ t).
    { intros ->. apply Hal. clear -Hpipe. induction Hpipe.
      - apply list_elem_of_here.
      - by apply list_elem_of_further. }
    apply (pipe_cons _ a sa g m); try done.
    + by rewrite !lookup_insert_ne.
    + intros [?|?%list_elem_of_singleton]%elem_of_app; done.
    + by apply IH.
Qed.

(** [Then] on the last promise of a chain extends the chain by one stage. *)
Lemma Then_result_extends invoke s fs l t f (w : World) :
  pipeline (heap w) s fs l t →
  let b := fresh (dom (heap w)) in
  ∃ w', Then_result invoke t f None w = Returns b w' ∧
        pipeline (heap w') s (fs ++ [f]) (l ++ [b]) b ∧
        trace w' = trace w.
Proof.
  intros Hpipe b.
  assert (Hb : heap w !! b = None) by apply fresh_heap_None.
  assert (Ht : ∃ st, heap w !! t = Some st ∧ status_ st = kInit ∧
                     cb_ st = None).
  { clear Hb. induction Hpipe; eauto. }
  destruct Ht as (st & Ht & Hst & Hcb).
  assert (Hbt : b ≠ t) by (intros Heq; rewrite Heq in Hb; congruence).
  unfold Then_result, PreferExecutor, GetExecutor. mrun.
  rewrite (bind_load _ st) by done. mrun.
  unfold Promise_new. unfold bind at 1. fold b.
  unfold Attach_result, Watch. mrun.
  erewrite bind_load by apply lookup_insert_eq. mrun.
  erewrite bind_load by (look; exact Ht). mrun.
  unfold AddCallback. mrun. erewrite bind_load by (by look). mrun.
  unfold TryInvokeCallback. mrun. erewrite bind_load by (by look).
  cbn [cb_ set_cb set_exec set_next status_]. rewrite Hst.
  cbn [is_pre negb]. mrun. eexists. split; [done|]. split; [|done]. look.
  rewrite !insert_insert_eq. by apply pipeline_snoc.
Qed.

(** Resolving the head of a chain runs its continuations in order and
    resolves the last promise; the first continuation that does not return
    a value aborts the run. *)
Lemma Resolve_runs_the_pipeline fuel s fs l t v (w : World) :
  pipeline (heap w) s fs l t → length fs ≤ fuel →
  match run_stages fs v with
  | Some u =>
    ∃ w', Resolve (InvokeVariantCallback fuel) s v w = Returns true w' ∧
          resolved_with w' t u
  | None => Resolve (InvokeVariantCallback fuel) s v w = Crashes
  end.
Proof.
  revert s l v w fuel.
  induction fs as [|f fs IH]; intros s l v w fuel Hpipe Hfuel.
  - inversion Hpipe as [s' st Hs Hst Hcb|]; subst. cbn [run_stages].
    unfold Resolve. rewrite (settle_no_callback _ t st _ _ w Hs Hcb).
    rewrite decide_True by done. eexists. split; [done|].
    eexists. cbn [heap set_heap]. by rewrite lookup_insert_eq.
  - inversion Hpipe as [|s' st f' n fs' l' t' Hs Hst Hcb Hex Hn Hnin Hrest];
      subst.
    destruct fuel as [|fuel]; [simpl in Hfuel; lia|].
    rewrite (Resolve_stage fuel s st f n v w Hs Hst Hcb Hex Hn).
    set (w2 := set_trace _ _). cbn [run_stages].
    destruct (f (kValue v)) as [|u|e]; [done| |done].
    unfold PropagateResult. cbn [Value]. mrun.
    assert (Hpipe2 : pipeline (heap w2) n fs l' t)
      by (by apply pipeline_insert).
    assert (Hfuel2 : length fs ≤ fuel) by (simpl in Hfuel; lia).
    pose proof (IH n l' u w2 fuel Hpipe2 Hfuel2) as Hrest2.
    unfold bind. destruct (run_stages fs u) as [u'|].
    + destruct Hrest2 as (w' & -> & Hres). by exists w'.
    + by rewrite Hrest2.
Qed.

(** [p.Then(f1).Then(f2)...], each [Then] with the default executor; the
    result is the last promise. *)
Fixpoint then_all (invoke : Callback → AnyResult → M unit) (p : addr)
    (fs : list (Result → Result)) : M addr :=
  match fs with
  | [] => ret p
  | f :: fs' => let! b := Then_result invoke p f None in then_all invoke b fs'
  end.

Lemma then_all_builds invoke fs : ∀ s fs0 l t (w : World),
  pipeline (heap w) s fs0 l t →
  ∃ t' l' w', then_all invoke t fs w = Returns t' w' ∧
              pipeline (heap w') s (fs0 ++ fs) l' t' ∧
              trace w' = trace w.
Proof.
  induction fs as [|f fs IH]; intros s fs0 l t w Hpipe.
  - exists t, l, w. by rewrite app_nil_r.
  - destruct (Then_result_extends invoke s fs0 l t f w Hpipe)
      as (w1 & Hrun1 & Hpipe1 & Htr1).
    destruct (IH s (fs0 ++ [f]) _ _ w1 Hpipe1)
      as (t' & l' & w' & Hrun & Hpipe' & Htr).
    exists t', l', w'. cbn [then_all]. unfold bind. rewrite Hrun1, Hrun.
    rewrite <- app_assoc in Hpipe'. split; [done|]. split; [done|].
    by rewrite Htr.
Qed.

(** X5. A chain [p.Then(f1).Then(f2)...] built on a new promise with
    continuations that return a [Result] and no executor: resolving [p]
    with [v] runs the continuations in order, each on the value the previous
    one returned, and resolves the last promise of the chain with the value
    the last one returns; the first continuation that returns an error (or
    an empty [Result]) aborts the run. *)
Theorem Then_chain_composes fuel fs v (w : World) :
  length fs ≤ fuel →
  let invoke := InvokeVariantCallback fuel in
  let chain :=
    let! p := Promise_new None in
    let! t := then_all invoke p fs in
    Resolve invoke p v >> ret t in
  match run_stages fs v with
  | Some u => ∃ t w', chain w = Returns t w' ∧ resolved_with w' t u
  | None => chain w = Crashes
  end.
Proof.
  intros Hfuel invoke chain.
  assert (∃ p l t w1, pipeline (heap w1) p fs l t ∧
                      chain w = (Resolve invoke p v >> ret t) w1)
    as (p & l & t & w1 & Hpipe & ->).
  { unfold chain, Promise_new. unfold bind at 1.
    set (p := fresh (dom (heap w))). set (w0 := set_heap _ w).
    assert (Hpipe0 : pipeline (heap w0) p [] [p] p).
    { apply (pipe_end _ p (new_state None)); [|done..].
      apply lookup_insert_eq. }
    destruct (then_all_builds invoke fs p [] [p] p w0 Hpipe0)
      as (t & l & w1 & Hrun & Hpipe & _).
    cbn [app] in Hpipe. unfold bind at 1. rewrite Hrun. by exists p, l, t, w1. }
  pose proof (Resolve_runs_the_pipeline fuel p fs l t v w1 Hpipe Hfuel)
    as Hres.
  unfold bind. fold invoke in Hres. destruct (run_stages fs v) as [u|].
  - destruct Hres as (w' & -> & Hres). by exists t, w'.
  - by rewrite Hres.
Qed.

Lemma Reject_enters_the_pipeline fuel s f fs l t e (w : World) :
  pipeline (heap w) s (f :: fs) l t → length (f :: fs) ≤ fuel →
  match f (kError e) with
  | kValue u =>
    match run_stages fs u with
    | Some u' =>
      ∃ w', Reject (InvokeVariantCallback fuel) s e w = Returns true w' ∧
            resolved_with w' t u'
    | None => Reject (InvokeVariantCallback fuel) s e w = Crashes
    end
  | _ => Reject (InvokeVariantCallback fuel) s e w = Crashes
  end.
Proof.
  intros Hpipe Hfuel.
  inversion Hpipe as [|s' st f' n fs' l' t' Hs Hst Hcb Hex Hn Hnin Hrest];
    subst.
  destruct fuel as [|fuel]; [simpl in Hfuel; lia|].
  rewrite (Reject_stage fuel s st f n e w Hs Hst Hcb Hex Hn).
  set (w2 := set_trace _ _).
  destruct (f (kError e)) as [|u|e']; [done| |done].
  unfold PropagateResult. cbn [Value]. mrun.
  assert (Hpipe2 : pipeline (heap w2) n fs l' t)
    by (by apply pipeline_insert).
  assert (Hfuel2 : length fs ≤ fuel) by (simpl in Hfuel; lia).
  pose proof (Resolve_runs_the_pipeline fuel n fs l' t u w2 Hpipe2 Hfuel2)
    as Hrest2.
  unfold bind. destruct (run_stages fs u) as [u'|].
  - destruct Hrest2 as (w' & -> & Hres). by exists w'.
  - by rewrite Hrest2.
Qed.

(** X11. Rejecting the head of such a chain calls the first continuation
    with the error.  A continuation that recovers (returns a value) feeds
    the rest of the chain as a resolution would; one that passes the error
    on aborts the run, so the rejection never reaches the next promise.
    With no continuation at all the promise itself is rejected. *)
Theorem Then_chain_recovers_or_aborts fuel fs e (w : World) :
  length fs ≤ fuel →
  let invoke := InvokeVariantCallback fuel in
  let chain :=
    let! p := Promise_new None in
    let! t := then_all invoke p fs in
    Reject invoke p e >> ret t in
  match fs with
  | [] => ∃ t w', chain w = Returns t w' ∧ rejected_with w' t e
  | f :: fs' =>
    match f (kError e) with
    | kValue u =>
      match run_stages fs' u with
      | Some u' => ∃ t w', chain w = Returns t w' ∧ resolved_with w' t u'
      | None => chain w = Crashes
      end
    | _ => chain w = Crashes
    end
  end.
Proof.
  intros Hfuel invoke chain.
  assert (∃ p l t w1, pipeline (heap w1) p fs l t ∧
                      chain w = (Reject invoke p e >> ret t) w1)
    as (p & l & t & w1 & Hpipe & ->).
  { unfold chain, Promise_new. unfold bind at 1.
    set (p := fresh (dom (heap w))). set (w0 := set_heap _ w).
    assert (Hpipe0 : pipeline (heap w0) p [] [p] p).
    { apply (pipe_end _ p (new_state None)); [|done..].
      apply lookup_insert_eq. }
    destruct (then_all_builds invoke fs p [] [p] p w0 Hpipe0)
      as (t & l & w1 & Hrun & Hpipe & _).
    cbn [app] in Hpipe. unfold bind at 1. rewrite Hrun. by exists p, l, t, w1. }
  destruct fs as [|f fs'].
  - inversion Hpipe as [s' st Hs Hst Hcb|]; subst.
    unfold Reject, bind. rewrite (settle_no_callback _ t st _ _ w1 Hs Hcb).
    rewrite decide_True by done. eexists _, _. split; [done|].
    eexists. cbn [heap set_heap]. by rewrite lookup_insert_eq.
  - pose proof (Reject_enters_the_pipeline fuel p f fs' l t e w1 Hpipe Hfuel)
      as Hres.
    unfold bind. fold invoke in Hres.
    destruct (f (kError e)) as [|u|e']; [by rewrite Hres| |by rewrite Hres].
    destruct (run_stages fs' u) as [u'|].
    + destruct Hres as (w' & -> & Hres). by exists t, w'.
    + by rewrite Hres.
Qed.

(** ** [Then] with a continuation that returns a promise *)

Lemma Resolve_promise_stage fuel s (st : PromiseState) f n v w :
  heap w !! s = Some st → status_ st = kInit →
  cb_ st = Some (CbPromise s f) → exec_ st = None → next_ st = Some n →
  Resolve (InvokeVariantCallback (S fuel)) s v w =
  (PropagatePromise (InvokeVariantCallback fuel) n (f (kValue v)) >>
   ret true)
    (set_trace (trace w ++ [Invoked (CbPromise s f) (OfT (kValue v))])
       (set_heap (<[s := set_status kResolved
                   (set_storage None (set_cb None
                     (set_storage (Some (OfT (kValue v)))
                       (set_status kPreResolved st))))]> (heap w)) w)).
Proof.
  intros Hs Hst Hcb Hex Hnext. unfold Resolve.
  rewrite (settle_with_callback _ s st kPreResolved _ _ w Hs Hst Hcb eq_refl).
  rewrite Hex. cbv zeta. rewrite decide_True by done.
  cbn [InvokeVariantCallback]. mrun.
  unfold call_callback. mrun. cbn [heap set_heap set_trace].
  rewrite lookup_insert_eq. cbn [next_ set_status set_storage set_cb].
  rewrite Hnext. cbn [as_result]. by mrun.
Qed.

(** [PropagatePromise] up to the delivery from the inner promise. *)
Lemma PropagatePromise_attaches invoke B P (stB stP : PromiseState) w :
  heap w !! B = Some stB → heap w !! P = Some stP → P ≠ B →
  PropagatePromise invoke B P w =
  TryInvokeCallback invoke P
    (set_heap (<[P := set_cb (Some (CbResult P (λ r, r)))
                   (set_exec None (set_next (Some B) stP))]>
                 (<[B := set_prev (Some P) stB]> (heap w))) w).
Proof.
  intros HB HP Hne. unfold PropagatePromise, Attach_result, Watch. mrun.
  rewrite (bind_load _ stB) by done. mrun.
  erewrite bind_load by (look; exact HP). mrun.
  unfold AddCallback.
  erewrite bind_load by (look; done). mrun.
  look. by rewrite insert_insert_eq.
Qed.

(** X6. In a chain [A → B] built by [Then] with a continuation [f] that
    returns a promise and no executor, resolving [A] attaches [B] to the
    promise [P] that [f] returns: if [P] already holds an undelivered value
    [B] is resolved with it at once; if [P] is still [kInit], [B] is
    resolved with the value [P] is resolved with later; a rejection of [P],
    before or after, aborts the run instead of rejecting [B]. *)
Theorem Then_promise_follows_inner fuel A B P (stA stB stP : PromiseState)
    f v u (w : World) :
  heap w !! A = Some stA → heap w !! B = Some stB → heap w !! P = Some stP →
  A ≠ B → P ≠ A → P ≠ B →
  status_ stA = kInit → cb_ stA = Some (CbPromise A f) →
  exec_ stA = None → next_ stA = Some B →
  status_ stB = kInit → cb_ stB = None →
  f (kValue v) = P →
  let invoke := InvokeVariantCallback (S (S fuel)) in
  (status_ stP = kPreResolved → storage_ stP = Some (OfT (kValue u)) →
   ∃ w', Resolve invoke A v w = Returns true w' ∧ resolved_with w' B u) ∧
  (status_ stP = kInit →
   ∃ w1, Resolve invoke A v w = Returns true w1 ∧
         (∃ w2, Resolve invoke P u w1 = Returns true w2 ∧
                resolved_with w2 B u) ∧
         (∀ e, Reject invoke P e w1 = Crashes)) ∧
  (∀ e, status_ stP = kPreRejected → storage_ stP = Some (OfT (kError e)) →
   Resolve invoke A v w = Crashes).
Proof.
  intros HA HB HP HAB HPA HPB HstA HcbA HexA HnA HstB HcbB Hf invoke.
  unfold invoke.
  assert (∃ w2,
            Resolve (InvokeVariantCallback (S (S fuel))) A v w =
              (TryInvokeCallback (InvokeVariantCallback (S fuel)) P >>
               ret true) w2 ∧
            heap w2 !! P =
              Some (set_cb (Some (CbResult P (λ r, r)))
                      (set_exec None (set_next (Some B) stP))) ∧
            heap w2 !! B = Some (set_prev (Some P) stB))
    as (w2 & -> & HP2 & HB2).
  { rewrite (Resolve_promise_stage (S fuel) A stA f B v w HA HstA HcbA HexA
               HnA).
    rewrite Hf. set (w1 := set_trace _ _).
    assert (HB1 : heap w1 !! B = Some stB) by (subst w1; by look).
    assert (HP1 : heap w1 !! P = Some stP) by (subst w1; by look).
    unfold bind at 1.
    rewrite (PropagatePromise_attaches _ B P stB stP w1 HB1 HP1 HPB).
    eexists. split; [done|]. by look. }
  unfold TryInvokeCallback. mrun. erewrite bind_load by exact HP2.
  cbn [cb_ set_cb status_ set_exec set_next storage_ exec_].
  split; [|split].
  - intros HstP Hsto. rewrite HstP, Hsto. cbn [is_pre negb]. mrun.
    rewrite decide_True by done. unfold RunInExecutor.
    cbn [InvokeVariantCallback]. mrun. unfold call_callback. mrun. look.
    cbn [next_ set_status set_storage set_cb set_exec set_next as_result].
    mrun. unfold PropagateResult. cbn [Value]. mrun.
    unfold Resolve, bind.
    erewrite settle_no_callback; [|by look|done].
    cbn [status_ set_prev]. rewrite decide_True by done.
    eexists. split; [done|]. eexists. look. done.
  - intros HstP. rewrite HstP. cbn [is_pre negb]. mrun.
    exists w2. split; [done|]. split.
    + rewrite (Resolve_stage (S fuel) P _ (λ r, r) B u w2 HP2) by done.
      unfold PropagateResult. cbn [Value]. mrun.
      unfold Resolve, bind.
      erewrite settle_no_callback; [|by look|done].
      cbn [status_ set_prev]. rewrite decide_True by done.
      eexists. split; [done|]. eexists. look. done.
    + intros e.
      by rewrite (Reject_stage (S fuel) P _ (λ r, r) B e w2 HP2) by done.
  - intros e HstP Hsto. rewrite HstP, Hsto. cbn [is_pre negb]. mrun.
    rewrite decide_False by done. unfold RunInExecutor.
    cbn [InvokeVariantCallback]. mrun. unfold call_callback. mrun. look.
    cbn [next_ set_status set_storage set_cb set_exec set_next as_result].
    by mrun.
Qed.

(** ** Awaiting a promise that is not settled yet *)

Lemma bind_load_awaiter {B} a x (k : PromiseAwaiter → M B) w :
  awaiters w !! a = Some x → bind (load_awaiter a) k w = k x w.
Proof.
  intros Ha. unfold bind, load_awaiter. by rewrite Ha.
Qed.

Lemma bind_store_awaiter {B} a x (k : unit → M B) w :
  bind (store_awaiter a x) k w =
  k tt (set_awaiters (<[a := x]> (awaiters w)) w).
Proof. done. Qed.

(** X7. [co_await] on a promise that is still [kInit] suspends the
    coroutine: it attaches a continuation that goes to the current loop.
    When the promise is resolved afterwards (and, with a current loop, the
    posted closure has run) the coroutine has been resumed, once, and
    [await_resume()] hands it the value the promise was resolved with. *)
Theorem co_await_suspends_until_settled fuel p (st : PromiseState) h current
    v (w : World) :
  heap w !! p = Some st → status_ st = kInit → posted w = [] →
  let invoke := InvokeVariantCallback (S fuel) in
  let a := fresh (dom (awaiters w)) in
  ∃ w1, co_await invoke false p h current w = Returns (Suspends a) w1 ∧
        trace w1 = trace w ∧ posted w1 = [] ∧
  ∃ w2, (Resolver_Resolve invoke p v >>
         match current with
         | Some e => RunOne (S fuel) e
         | None => ret tt
         end) w1 = Returns tt w2 ∧
        await_resume invoke a w2 = Returns (OfT (kValue v)) w2 ∧
        trace w2 = trace w ++
          [Invoked (CbVoid p (FnAwaitSuspend a h)) (OfT (kValue v));
           Resumed h] ∧
        posted w2 = [].
Proof.
  intros Hp Hst Hposted invoke a.
  unfold co_await, operator_co_await. unfold bind at 1.
  fold a. unfold await_ready.
  erewrite bind_assoc, bind_load_awaiter by apply lookup_insert_eq.
  cbn [promise_]. unfold IsPending, GetStatus. mrun.
  rewrite (bind_load _ st) by done. mrun. rewrite Hst.
  cbn [bool_decide decide_rel orb]. rewrite !bool_decide_eq_false_2 by done.
  cbn [orb]. unfold await_suspend.
  erewrite bind_assoc, bind_load_awaiter by apply lookup_insert_eq.
  cbn [promise_]. unfold Then, Attach, AddCallback. mrun.
  rewrite (bind_load _ st) by done. mrun.
  unfold TryInvokeCallback. mrun.
  erewrite bind_load by apply lookup_insert_eq.
  cbn [cb_ set_cb set_exec status_]. rewrite Hst. cbn [is_pre negb]. mrun.
  eexists. split; [done|]. split; [done|]. split; [done|].
  unfold Resolver_Resolve. mrun. look. unfold Resolve.
  unfold bind at 1.
  erewrite settle_with_callback; [|by look|done|done|done].
  cbn [exec_ set_cb set_exec posted set_posted set_awaiters set_heap].
  rewrite Hposted. cbn [app].
  assert (Hcall : ∀ w3 : World,
            is_Some (heap w3 !! p) →
            awaiters w3 !! a = Some (mkAwaiter p (OfT kNull)) →
            InvokeVariantCallback (S fuel) (CbVoid p (FnAwaitSuspend a h))
              (OfT (kValue v)) w3 =
            Returns tt
              (set_trace (trace w3 ++
                 [Invoked (CbVoid p (FnAwaitSuspend a h)) (OfT (kValue v));
                  Resumed h])
                 (set_awaiters
                    (<[a := mkAwaiter p (OfT (kValue v))]> (awaiters w3))
                    w3))).
  { intros w3 [st3 Hp3] Ha3. cbn [InvokeVariantCallback]. mrun.
    unfold call_callback. mrun. cbn [heap set_trace]. rewrite Hp3.
    unfold call_user, await_suspend_callback.
    erewrite bind_load_awaiter by exact Ha3.
    rewrite bind_store_awaiter. unfold log. cbn [promise_].
    f_equal. apply world_ext; cbn; try done. by rewrite <- app_assoc. }
  assert (Hresume : ∀ w2 : World,
            awaiters w2 !! a = Some (mkAwaiter p (OfT (kValue v))) →
            (∃ st2, heap w2 !! p = Some st2 ∧ status_ st2 = kResolved) →
            await_resume invoke a w2 = Returns (OfT (kValue v)) w2).
  { intros w2 Ha2 (st2 & Hp2 & Hst2). unfold await_resume.
    erewrite bind_load_awaiter by exact Ha2. cbn [promise_].
    unfold IsPending, GetStatus. mrun. rewrite (bind_load _ st2) by done.
    mrun. rewrite Hst2. rewrite !bool_decide_eq_false_2 by done.
    cbn [orb]. mrun. by erewrite bind_load_awaiter by exact Ha2. }
  destruct current as [e|].
  - unfold RunOne. cbn [posted set_posted take_task].
    rewrite decide_True by done.
    erewrite Hcall;
      [|cbn; rewrite lookup_insert_eq; by eexists
       |by cbn; rewrite lookup_insert_eq].
    eexists. split; [done|]. split; [|done].
    apply Hresume; cbn; rewrite lookup_insert_eq; [done|by eexists].
  - unfold bind, invoke.
    erewrite Hcall;
      [|cbn; rewrite lookup_insert_eq; by eexists
       |by cbn; rewrite lookup_insert_eq].
    eexists. split; [done|]. split; [|by cbn; rewrite Hposted].
    apply Hresume; cbn; rewrite lookup_insert_eq; [done|by eexists].
Qed.

(** ** [co_return] of a [Result] from a [Promise<T, E>] coroutine *)

(** X8. [return_value(Result<T, E>&&)] of the [Promise<T, E>] adapter
    settles by variant: on a promise that is still [kInit] and has no
    continuation it stores the returned [Result] as it is, as a resolution
    when it holds a value and as a rejection when it holds an error; on a
    promise that has left [kInit] (cancelled while the coroutine ran) it
    changes nothing; an empty [Result] aborts. *)
Theorem return_value_Result_by_variant invoke promise (st : PromiseState) r
    (w : World) :
  heap w !! promise = Some st → cb_ st = None →
  return_value_Result invoke promise r w =
  match r with
  | kNull => Crashes
  | _ =>
    Returns tt
      (if decide (status_ st = kInit)
       then set_heap
              (<[promise := set_storage (Some (OfT r))
                   (set_status (if IsValue r then kPreResolved
                                else kPreRejected) st)]> (heap w)) w
       else w)
  end.
Proof.
  intros Hp Hcb. unfold return_value_Result.
  destruct r as [|v|e]; cbn [to_bool IsValue Value Error]; mrun; [done|..].
  - unfold Resolver_Resolve, Resolve. mrun. rewrite Hp. cbv beta match.
    unfold bind. rewrite (settle_no_callback _ _ st _ _ w Hp Hcb).
    by destruct (decide (status_ st = kInit)).
  - unfold Resolver_Reject, Reject. mrun. rewrite Hp. cbv beta match.
    unfold bind. rewrite (settle_no_callback _ _ st _ _ w Hp Hcb).
    by destruct (decide (status_ st = kInit)).
Qed.

(** ** [MkRacePromise] *)


Section Race.
Variables (its : list addr) (exec : option Executor) (out : addr).
Hypothesis Hnodup : NoDup its.
Hypothesis Hout : out ∉ its.

Local Abbreviation race_fn := (λ _ : nat, FnRace false out).









End Race.




(** ** Cancelling around a delivery *)

(** X10. [Cancel] discards a result that has not been delivered, and
    cannot recall one that has been posted.  A promise resolved before any
    continuation is attached and then cancelled loses the stored value, and
    a continuation attached afterwards is neither called nor posted.  A
    promise with a continuation for the executor [e], once resolved, has
    posted the call: [Cancel] then returns [false] and changes nothing, and
    the loop still calls the continuation with the value. *)
Theorem Cancel_versus_delivery fuel p (st : PromiseState) name e v
    (w : World) :
  heap w !! p = Some st → status_ st = kInit → next_ st = None →
  posted w = [] →
  let invoke := InvokeVariantCallback (S fuel) in
  let f := FnOpaque name in
  (cb_ st = None → co_handle_ st = None →
   (Resolve invoke p v >> Cancel (S fuel) p >> Then invoke p f (Some e)) w =
   Returns tt
     (set_heap (<[p := set_cb (Some (CbVoid p f))
                     (set_exec (Some e) (cancel_state st))]> (heap w)) w)) ∧
  (cb_ st = Some (CbVoid p f) → exec_ st = Some e →
   ∃ w1, (Resolve invoke p v >> Cancel (S fuel) p) w = Returns false w1 ∧
         trace w1 = trace w ∧
         ∃ w2, RunOne (S fuel) e w1 = Returns tt w2 ∧
               trace w2 = trace w ++
                 [Invoked (CbVoid p f) (OfT (kValue v));
                  Called name (OfT (kValue v))]).
Proof.
  intros Hp Hst Hn Hposted invoke f. split.
  - intros Hcb Hco. unfold Resolve. unfold bind at 1.
    rewrite (settle_no_callback _ p st _ _ w Hp Hcb).
    rewrite decide_True by done. unfold bind at 1.
    erewrite Cancel_no_downstream; [|by look|done|done|done].
    unfold Then, Attach, AddCallback.
    erewrite bind_load by (by look). mrun.
    unfold TryInvokeCallback. erewrite bind_load by (by look).
    cbn [cb_ set_cb set_exec status_ set_storage set_status is_pre negb].
    unfold ret. f_equal. apply world_ext; cbn; try done.
    by rewrite !insert_insert_eq.
  - intros Hcb Hex. unfold Resolve. unfold bind at 1.
    rewrite (settle_with_callback _ p st kPreResolved _ _ w Hp Hst Hcb eq_refl).
    rewrite Hex. cbv zeta. rewrite decide_True by done.
    cbn [Cancel]. unfold Cancel_body.
    erewrite bind_load by (cbn; apply lookup_insert_eq).
    cbn [status_ set_status cancellable]. rewrite Hposted. cbn [app].
    eexists. split; [done|]. split; [done|].
    unfold RunOne. cbn [posted set_posted take_task].
    rewrite decide_True by done.
    rewrite invoke_CbVoid by (cbn; rewrite lookup_insert_eq; by eexists).
    unfold call_user, f, log. eexists. split; [done|]. cbn.
    by rewrite <- app_assoc.
Qed.

(** ** Who gets called *)

(** X12. Over every sequence of operations from the empty world, a
    continuation is posted or called only on behalf of a state that has
    been settled and has delivered: whenever a closure sits in an
    executor's queue, and whenever a continuation has been called, the
    state it was attached to is [kResolved] or [kRejected]; never [kInit],
    never settled but undelivered, never [kCancelled]. *)
Theorem continuations_belong_to_delivered_states ops fuel (w : World) :
  2 * length ops + 2 < fuel →
  run_ops fuel ops empty_world = Returns tt w →
  (∀ e cb v, (e, (cb, v)) ∈ posted w → has_delivered w (owner cb)) ∧
  (∀ cb v, Invoked cb v ∈ trace w → has_delivered w (owner cb)).
Proof.
  intros Hfuel Hrun.
  destruct fuel as [|fuel]; [lia|].
  pose proof (run_ops_sound ops (fuel - 2) empty_world) as Hs.
  replace (S (fuel - 2 + 2)) with (S fuel) in Hs by lia.
  unfold wp in Hs. rewrite Hrun in Hs.
  destruct Hs as (_ & _ & Hwf).
  { assert (rank_sum (heap (@empty_world T E)) = 0) as -> by done. lia. }
  destruct (Hwf wf_empty_world) as [(_ & Hposted & _) (tr & Htr & Hcalls)].
  split; [done|]. intros cb v Hin. apply (Hcalls cb v).
  by rewrite Htr in Hin.
Qed.

(** ** Cancelling the promise of a coroutine *)

(** X13. [get_return_object] stores the coroutine handle in the state and
    nothing ever resets it, while a coroutine that runs to its end frees its
    frame ([final_suspend] never suspends).  [Cancel] on the promise of a
    coroutine destroys the coroutine while it is suspended (the state is
    [kInit]).  After the coroutine has returned a value that has not been
    delivered yet, [Cancel] destroys the frame that is gone: the call does
    not return.  Once the value has been delivered to a continuation,
    [Cancel] returns [false] and destroys nothing. *)
Theorem Cancel_destroys_the_coroutine fuel p (st : PromiseState) h v name
    (w : World) :
  heap w !! p = Some st → status_ st = kInit → cb_ st = None →
  next_ st = None → h ∉ ended w →
  let invoke := InvokeVariantCallback (S fuel) in
  (∃ w1, (AttachCoroutineHandle p h >> Cancel (S fuel) p) w
         = Returns true w1 ∧
         trace w1 = trace w ++ [Destroyed h] ∧
         ended w1 = {[h]} ∪ ended w ∧
         heap w1 !! p = Some (cancel_state (set_co_handle (Some h) st))) ∧
  (AttachCoroutineHandle p h >> co_return invoke p h v >>
   Cancel (S fuel) p) w = Crashes ∧
  (∃ w3, (AttachCoroutineHandle p h >> co_return invoke p h v >>
          Then invoke p (FnOpaque name) None >> Cancel (S fuel) p) w
         = Returns false w3 ∧
         trace w3 = trace w ++
           [Invoked (CbVoid p (FnOpaque name)) (OfT (kValue v));
            Called name (OfT (kValue v))]).
Proof.
  intros Hp Hst Hcb Hn Hlive invoke. unfold AttachCoroutineHandle.
  rewrite !bind_assoc, !(bind_load _ st) by done. rewrite !bind_store.
  set (st1 := set_co_handle (Some h) st).
  set (w0 := set_heap _ w).
  assert (Hp0 : heap w0 !! p = Some st1) by (subst w0; by look).
  assert (Hst1 : status_ st1 = kInit) by done.
  assert (Hcb1 : cb_ st1 = None) by done.
  assert (Hn1 : next_ st1 = None) by done.
  split; [|split].
  - rewrite (Cancel_here fuel p st1 w0 Hp0), Hn1;
      [|by rewrite Hst1|by intros h' [= <-]].
    eexists. split; [done|]. split; [done|]. split; [done|].
    rewrite heap_cancelled_here. apply lookup_insert_eq.
  - unfold co_return, return_value_T, Resolver_Resolve, Resolve. mrun.
    rewrite Hp0. cbv beta match. unfold bind at 1.
    rewrite (settle_no_callback _ p st1 _ _ w0 Hp0 Hcb1).
    rewrite decide_True by done. mrun. unfold bind at 1, final_suspend.
    erewrite (Cancel_dangling fuel p _ h);
      [done|cbn; apply lookup_insert_eq|done|done|].
    cbn. by apply elem_of_union_l, elem_of_singleton.
  - unfold co_return, return_value_T, Resolver_Resolve, Resolve. mrun.
    rewrite Hp0. cbv beta match. unfold bind at 1.
    rewrite (settle_no_callback _ p st1 _ _ w0 Hp0 Hcb1).
    rewrite decide_True by done. mrun. unfold bind at 1, final_suspend.
    unfold Then, Attach, AddCallback. mrun.
    erewrite bind_load by (by look). mrun.
    unfold TryInvokeCallback. mrun. erewrite bind_load by (by look).
    cbn [cb_ set_cb set_exec status_ set_storage set_status storage_ exec_
         is_pre negb]. mrun.
    rewrite decide_True by done. unfold RunInExecutor, invoke.
    unfold bind at 1.
    rewrite invoke_CbVoid by (look; by eexists).
    unfold call_user, log. cbn [Cancel]. unfold Cancel_body.
    erewrite bind_load by (by look).
    cbn [status_ set_status cancellable]. eexists. split; [done|].
    cbn. by rewrite <- app_assoc.
Qed.

End Further.

(** ** The further properties at concrete worlds *)

(** The chain [A → B] after [A.Cancel()]. *)
Definition cancelled_chain : @World nat nat :=
  match Cancel 5 0 pending_chain with
  | Returns _ w => w
  | _ => empty_world
  end.


(** A continuation that recovers from any error with the value [1]. *)
Definition recover (r : @Result nat nat) : @Result nat nat :=
  match r with
  | kError _ => kValue (Base 1)
  | _ => r
  end.

(** [Promise<int> A, P; auto B = A.Then([&](auto&&) { return P; });] *)
Definition inner_chain : @World nat nat :=
  world_of [OpNew None; OpNew None; OpThenPromise 0 (λ _, 1) None].

Definition inner_head : @PromiseState nat nat :=
  mkState kInit None (Some 2) None None None (Some (CbPromise 0 (λ _, 1))).
Definition inner_tail : @PromiseState nat nat :=
  mkState kInit None None (Some 0) None None None.

(** X1 on a promise just created. *)
Lemma Then_commutes_with_settling_witness :
  heap two_inputs !! 0 = Some (new_state None) ∧
  bind (Then (InvokeVariantCallback 3) 0 (FnOpaque 7) None)
    (λ _, Resolve (InvokeVariantCallback 3) 0 (Base 5)) two_inputs =
  bind (Resolve (InvokeVariantCallback 3) 0 (Base 5))
    (λ b, bind (Then (InvokeVariantCallback 3) 0 (FnOpaque 7) None)
            (λ _, ret b)) two_inputs.
Proof.
  split; [done|].
  exact (proj1 (Then_commutes_with_settling 3 0 (new_state None) (FnOpaque 7)
                  None (Base 5) (BaseE 3) two_inputs eq_refl eq_refl
                  eq_refl)).
Defined.

(** X2: the second [Then] names the executor [1]; the closure posted holds
    the second continuation. *)
Lemma Then_replaces_continuation_witness :
  heap two_inputs !! 0 = Some (new_state None) ∧
  ∃ w',
    bind (Then (InvokeVariantCallback 3) 0 (FnOpaque 7) None)
      (λ _, bind (Then (InvokeVariantCallback 3) 0 (FnOpaque 8) (Some 1))
              (λ _, Resolve (InvokeVariantCallback 3) 0 (Base 5)))
      two_inputs = Returns true w' ∧
    posted w' = [(1, (CbVoid 0 (FnOpaque 8), OfT (kValue (Base 5))))] ∧
    trace w' = [].
Proof.
  split; [done|].
  rewrite (Then_replaces_continuation 3 0 (new_state None) (FnOpaque 7)
             (FnOpaque 8) None (Some 1) (Base 5) two_inputs eq_refl eq_refl).
  by eexists.
Defined.

(** X3 on the chain [A → B]: the second [A.Cancel()]. *)
Lemma Cancel_again_is_noop_witness :
  Cancel 5 0 pending_chain = Returns true cancelled_chain ∧
  Cancel 3 0 cancelled_chain = Returns false cancelled_chain.
Proof.
  assert (H : Cancel 5 0 pending_chain = Returns true cancelled_chain)
    by (by vm_compute).
  split; [exact H|].
  exact (Cancel_again_is_noop 5 2 0 pending_chain cancelled_chain true H).
Defined.


(** X5 on [p.Then(id).Then(fail_on_zero)], resolved with [5]. *)
Lemma Then_chain_composes_witness :
  length [λ r : @Result nat nat, r; fail_on_zero] ≤ 2 ∧
  ∃ t w',
    bind (Promise_new None)
      (λ p, bind (then_all (InvokeVariantCallback 2) p
                    [λ r, r; fail_on_zero])
              (λ t, bind (Resolve (InvokeVariantCallback 2) p (Base 5))
                      (λ _, ret t))) empty_world = Returns t w' ∧
    resolved_with w' t (Base 5).
Proof.
  assert (H : length [λ r : @Result nat nat, r; fail_on_zero] ≤ 2)
    by (simpl; lia).
  split; [exact H|].
  exact (Then_chain_composes 2 [λ r, r; fail_on_zero] (Base 5) empty_world H).
Defined.

(** X6 on [inner_chain]: [A] is resolved first, the inner promise later. *)
Lemma Then_promise_follows_inner_witness :
  heap inner_chain !! 0 = Some inner_head ∧
  heap inner_chain !! 2 = Some inner_tail ∧
  heap inner_chain !! 1 = Some (new_state None) ∧
  ∃ w1 w2,
    Resolve (InvokeVariantCallback 2) 0 (Base 5) inner_chain
      = Returns true w1 ∧
    Resolve (InvokeVariantCallback 2) 1 (Base 6) w1 = Returns true w2 ∧
    resolved_with w2 2 (Base 6).
Proof.
  assert (HA : heap inner_chain !! 0 = Some inner_head) by (by vm_compute).
  assert (HB : heap inner_chain !! 2 = Some inner_tail) by (by vm_compute).
  assert (HP : heap inner_chain !! 1 = Some (new_state None))
    by (by vm_compute).
  split; [exact HA|]. split; [exact HB|]. split; [exact HP|].
  destruct (Then_promise_follows_inner 0 0 2 1 inner_head inner_tail
              (new_state None) (λ _, 1) (Base 5) (Base 6) inner_chain
              HA HB HP) as (_ & H & _); [done..|].
  destruct H as (w1 & Hr1 & (w2 & Hr2 & Hres) & _); [done|].
  by exists w1, w2.
Defined.

(** X7 on a promise just created, awaited with the loop [4] current. *)
Lemma co_await_suspends_until_settled_witness :
  heap two_inputs !! 0 = Some (new_state None) ∧
  ∃ a w1 w2,
    co_await (InvokeVariantCallback 2) false 0 9 (Some 4) two_inputs
      = Returns (Suspends a) w1 ∧
    bind (Resolver_Resolve (InvokeVariantCallback 2) 0 (Base 5))
      (λ _, RunOne 2 4) w1 = Returns tt w2 ∧
    await_resume (InvokeVariantCallback 2) a w2
      = Returns (OfT (kValue (Base 5))) w2.
Proof.
  split; [done|].
  destruct (co_await_suspends_until_settled 1 0 (new_state None) 9 (Some 4)
              (Base 5) two_inputs eq_refl eq_refl eq_refl)
    as (w1 & Hco & _ & _ & w2 & Hrun & Hres & _).
  by eexists _, w1, w2.
Defined.

(** X8: [co_return] of an error. *)
Lemma return_value_Result_by_variant_witness :
  heap two_inputs !! 0 = Some (new_state None) ∧
  ∃ w', return_value_Result (InvokeVariantCallback 1) 0 (kError (BaseE 3))
          two_inputs = Returns tt w' ∧
        rejected_with w' 0 (BaseE 3).
Proof.
  split; [done|].
  rewrite (return_value_Result_by_variant (InvokeVariantCallback 1) 0
             (new_state None) (kError (BaseE 3)) two_inputs eq_refl eq_refl).
  eexists. split; [done|]. eexists. by vm_compute.
Defined.


(** X10: resolved, cancelled, and only then given a continuation. *)
Lemma Cancel_versus_delivery_witness :
  heap two_inputs !! 0 = Some (new_state None) ∧
  ∃ w',
    bind (Resolve (InvokeVariantCallback 2) 0 (Base 5))
      (λ _, bind (Cancel 2 0)
              (λ _, Then (InvokeVariantCallback 2) 0 (FnOpaque 7) (Some 1)))
      two_inputs = Returns tt w' ∧
    posted w' = [] ∧ trace w' = [].
Proof.
  split; [done|].
  destruct (Cancel_versus_delivery 1 0 (new_state None) 7 1 (Base 5)
              two_inputs eq_refl eq_refl eq_refl eq_refl) as [H _].
  eexists. split; [by apply H|done].
Defined.

(** X11 on [p.Then(recover).Then(id)], rejected with [3]. *)
Lemma Then_chain_recovers_or_aborts_witness :
  length [recover; λ r : @Result nat nat, r] ≤ 2 ∧
  ∃ t w',
    bind (Promise_new None)
      (λ p, bind (then_all (InvokeVariantCallback 2) p [recover; λ r, r])
              (λ t, bind (Reject (InvokeVariantCallback 2) p (BaseE 3))
                      (λ _, ret t))) empty_world = Returns t w' ∧
    resolved_with w' t (Base 1).
Proof.
  assert (H : length [recover; λ r : @Result nat nat, r] ≤ 2)
    by (simpl; lia).
  split; [exact H|].
  exact (Then_chain_recovers_or_aborts 2 [recover; λ r, r] (BaseE 3)
           empty_world H).
Defined.

(** X12 on the chain whose downstream was resolved through its own
    resolver. *)
Lemma continuations_belong_to_delivered_states_witness :
  2 * length settled_ops + 2 < 12 ∧
  run_ops 12 settled_ops empty_world = Returns tt settled_downstream ∧
  ∀ cb v, Invoked cb v ∈ trace settled_downstream →
          has_delivered settled_downstream (owner cb).
Proof.
  assert (Hf : 2 * length settled_ops + 2 < 12) by (vm_compute; lia).
  assert (Hr : run_ops 12 settled_ops empty_world
               = Returns tt settled_downstream) by (by vm_compute).
  split; [exact Hf|]. split; [exact Hr|].
  exact (proj2 (continuations_belong_to_delivered_states settled_ops 12
                  settled_downstream Hf Hr)).
Defined.

(** X13 on a promise just created, taken as the promise of the coroutine
    [9]: cancelled while the coroutine is suspended, and after it has
    returned [5]. *)
Lemma Cancel_destroys_the_coroutine_witness :
  heap two_inputs !! 0 = Some (new_state None) ∧
  (9 ∉ ended two_inputs) ∧
  (∃ w1, bind (AttachCoroutineHandle 0 9) (λ _, Cancel 2 0) two_inputs
         = Returns true w1 ∧
         trace w1 = [Destroyed 9]) ∧
  bind (AttachCoroutineHandle 0 9)
    (λ _, bind (co_return (InvokeVariantCallback 2) 0 9 (Base 5))
            (λ _, Cancel 2 0)) two_inputs = Crashes.
Proof.
  assert (Hl : 9 ∉ ended two_inputs) by (exact (not_elem_of_empty 9)).
  split; [done|]. split; [exact Hl|].
  destruct (Cancel_destroys_the_coroutine 1 0 (new_state None) 9 (Base 5) 7
              two_inputs eq_refl eq_refl eq_refl eq_refl Hl)
    as ((w1 & Hrun & Htr & _) & Hgone & _).
  split; [by exists w1|exact Hgone].
Defined.
